(** * Issue tracker: a verified model of the backend

    Shallow embedding of [backend/model.py], [backend/schemas.py],
    [backend/csv_import.py] and [backend/main.py].

    Modelling conventions.
    - Text is [string], read as UTF-8: [Text.chars] gives the characters,
      [Text.len] counts them and [Text.strip] removes the white space of
      Unicode at both ends, as Python's [len] and [str.strip] do.
    - Python integers are [Z].
    - A CSV row produced by [csv.DictReader] is a [gmap string (option string)]:
      a column that the header lacks is absent from the map, a column that
      the header has and a short line does not fill is bound to [None].
      The import is modelled from the list of rows that the reader yields
      (it skips lines without any field), numbered from 2.
    - The table [issues] is the list of its rows in primary-key order,
      together with the next value of the autoincrement sequence.
    - Handlers thread the table explicitly and return it next to their
      result; a raised exception is a value of type [Exception].
    - The database engine that evaluates [ORDER BY] is a parameter of the
      listing; what the spec says of rows with equal [created_at] is a
      hypothesis where it is used. *)

From Stdlib Require Import ZArith Ascii String.
From stdpp Require Import base option list gmap strings pretty sorting.

Local Open Scope Z_scope.

(** ** Text *)

Module Text.

(** A text is held as the bytes of its UTF-8 encoding, which is also how a
    string literal of this file is read: an ASCII character is one byte, a
    character beyond ASCII is a lead byte followed by one to three
    continuation bytes (128 to 191). *)

Definition continuation (c : ascii) : bool :=
  let n := nat_of_ascii c in (128 <=? n)%nat && (n <=? 191)%nat.

Definition starts_with_continuation (s : string) : bool :=
  match s with
  | String c _ => continuation c
  | EmptyString => false
  end.

(** The characters of a text, in order: each byte that is no continuation
    byte, together with the continuation bytes that follow it. *)
Fixpoint chars (s : string) : list string :=
  match s with
  | EmptyString => []
  | String c s' =>
      match chars s' with
      | ch :: rest =>
          if starts_with_continuation ch
          then String c ch :: rest
          else String c EmptyString :: ch :: rest
      | [] => [String c EmptyString]
      end
  end.

Definition join (l : list string) : string := foldr String.append EmptyString l.

(** The text with the given bytes. *)
Definition utf8 (bytes : list nat) : string :=
  foldr (fun n s => String (ascii_of_nat n) s) EmptyString bytes.

(** The characters of which [str.isspace] holds: U+0009 to U+000D, U+001C
    to U+0020, U+0085, U+00A0, U+1680, U+2000 to U+200A, U+2028, U+2029,
    U+202F, U+205F and U+3000. *)
Definition whitespace : list string :=
  ((fun n => utf8 [n]) <$> [9; 10; 11; 12; 13; 28; 29; 30; 31; 32])%nat
  ++ [utf8 [194; 133]; utf8 [194; 160]; utf8 [225; 154; 128]]%nat
  ++ ((fun n => utf8 [226; 128; n])
        <$> [128; 129; 130; 131; 132; 133; 134; 135; 136; 137; 138; 168; 169; 175])%nat
  ++ [utf8 [226; 129; 159]; utf8 [227; 128; 128]]%nat.

(** [str.isspace] on one character. *)
Definition isspace (ch : string) : bool := existsb (String.eqb ch) whitespace.

Fixpoint lstrip_chars (l : list string) : list string :=
  match l with
  | [] => []
  | ch :: l' => if isspace ch then lstrip_chars l' else l
  end.

Definition rstrip_chars (l : list string) : list string :=
  reverse (lstrip_chars (reverse l)).

Definition lstrip (s : string) : string := join (lstrip_chars (chars s)).

Definition rstrip (s : string) : string := join (rstrip_chars (chars s)).

(** [str.strip()] *)
Definition strip (s : string) : string :=
  join (rstrip_chars (lstrip_chars (chars s))).

Definition lower_char (c : ascii) : ascii :=
  let n := nat_of_ascii c in
  if ((65 <=? n)%nat && (n <=? 90)%nat)%bool then ascii_of_nat (n + 32) else c.

(** [str.lower()] as the comparisons with the words of the importer see it:
    the letters A to Z are lowered and every other byte is kept. Python
    lowers a character beyond ASCII to text that still has a character
    beyond ASCII, with the one exception of the Kelvin sign, which becomes
    the letter k; none of the words that a lowered token is compared with
    has that letter, so each comparison comes out as in Python. The query
    layer folds case in the same way. *)
Fixpoint lower (s : string) : string :=
  match s with
  | EmptyString => EmptyString
  | String c s' => String (lower_char c) (lower s')
  end.

(** Python truthiness of a string. *)
Definition truthy (s : string) : bool :=
  match s with EmptyString => false | _ => true end.

(** [s or None] *)
Definition or_None (s : string) : option string :=
  if truthy s then Some s else None.

(** [len(s)]: the number of characters. *)
Definition len (s : string) : Z := Z.of_nat (length (chars s)).

(** Some characters beyond ASCII. *)
Definition NBSP : string := utf8 [194; 160]%nat.
Definition NEL : string := utf8 [194; 133]%nat.
Definition EM_SPACE : string := utf8 [226; 128; 131]%nat.
Definition IDEOGRAPHIC_SPACE : string := utf8 [227; 128; 128]%nat.
Definition E_ACUTE : string := utf8 [195; 169]%nat.

End Text.

(** ** model.py *)

Inductive StatusEnum := OPEN | IN_PROGRESS | RESOLVED | CLOSED.
Inductive PriorityEnum := LOW | MEDIUM | HIGH | CRITICAL.

#[global] Instance StatusEnum_eq_dec : EqDecision StatusEnum.
Proof. solve_decision. Defined.
#[global] Instance PriorityEnum_eq_dec : EqDecision PriorityEnum.
Proof. solve_decision. Defined.

(** The [.value] of the two string enumerations. *)
Definition status_value (s : StatusEnum) : string :=
  match s with
  | OPEN => "open" | IN_PROGRESS => "in_progress"
  | RESOLVED => "resolved" | CLOSED => "closed"
  end.

Definition priority_value (p : PriorityEnum) : string :=
  match p with
  | LOW => "low" | MEDIUM => "medium" | HIGH => "high" | CRITICAL => "critical"
  end.

(** Iteration order of [for status_enum in StatusEnum]. *)
Definition all_StatusEnum : list StatusEnum := [OPEN; IN_PROGRESS; RESOLVED; CLOSED].
Definition all_PriorityEnum : list PriorityEnum := [LOW; MEDIUM; HIGH; CRITICAL].

Record Issue := mkIssue {
  id : Z;
  title : string;
  description : option string;
  status : StatusEnum;
  priority : PriorityEnum;
  assignee : option string;
  reporter : option string;
  created_at : Z;
  updated_at : Z;
  version : Z
}.

#[global] Instance Issue_eq_dec : EqDecision Issue.
Proof. solve_decision. Defined.

(** ** schemas.py *)

Record IssueCreate := mkIssueCreate {
  ic_title : string;
  ic_description : option string;
  ic_status : StatusEnum;
  ic_priority : PriorityEnum;
  ic_assignee : option string;
  ic_reporter : option string
}.

(** The constraints that the [Field] declarations of [IssueCreate] carry. *)
Inductive Constraint := min_length (n : Z) | max_length (n : Z).

(** One failed field of a pydantic [ValidationError]: model, field,
    constraint and offending input. *)
Record ValidationFailure := mkFailure {
  vf_model : string;
  vf_field : string;
  vf_constraint : Constraint;
  vf_input : string
}.

(** Exceptions that the modelled code raises or catches. *)
Inductive Exception :=
| AttributeError (msg : string)
| ValidationError (failures : list ValidationFailure)
| HTTPException (status_code : Z) (detail : string)
| RequestValidationError (parameter : string)
| IntegrityError (column : string)
| OperationalError (msg : string).

(** A computation that may raise. *)
Definition Raises (A : Type) : Type := Exception + A.

Definition raise {A} (e : Exception) : Raises A := inl e.
Definition ret {A} (a : A) : Raises A := inr a.
Definition bind {A B} (m : Raises A) (k : A -> Raises B) : Raises B :=
  match m with inl e => inl e | inr a => k a end.

Notation "x <-! m ; k" := (bind m (fun x => k))
  (at level 100, m at next level, right associativity,
   format "x  <-!  m ;  '/' k").

(** Length checks of a string field; pydantic reports every failed field. *)
Definition check_min (model field : string) (n : Z) (s : string) : list ValidationFailure :=
  if Text.len s <? n then [mkFailure model field (min_length n) s] else [].

Definition check_max (model field : string) (n : Z) (s : string) : list ValidationFailure :=
  if n <? Text.len s then [mkFailure model field (max_length n) s] else [].

Definition check_max_opt (model field : string) (n : Z) (s : option string)
    : list ValidationFailure :=
  match s with None => [] | Some s => check_max model field n s end.

(** [IssueCreate(title=..., description=..., ...)]: the constructor validates
    [title] (1..200 characters), [assignee] and [reporter] (at most 100). *)
Definition IssueCreate_new (title : string) (description : option string)
    (status : StatusEnum) (priority : PriorityEnum)
    (assignee reporter : option string) : Raises IssueCreate :=
  match check_min "IssueCreate" "title" 1 title
        ++ check_max "IssueCreate" "title" 200 title
        ++ check_max_opt "IssueCreate" "assignee" 100 assignee
        ++ check_max_opt "IssueCreate" "reporter" 100 reporter with
  | [] => ret (mkIssueCreate title description status priority assignee reporter)
  | failures => raise (ValidationError failures)
  end.

Record IssueUpdate := mkIssueUpdate {
  iu_title : option (option string);
  iu_description : option (option string);
  iu_status : option (option StatusEnum);
  iu_priority : option (option PriorityEnum);
  iu_assignee : option (option string);
  iu_reporter : option (option string);
  iu_version : option Z
}.

Record IssueBulkUpdate := mkIssueBulkUpdate {
  bu_issue_ids : list Z;
  bu_status : option StatusEnum;
  bu_priority : option PriorityEnum;
  bu_assignee : option string
}.

Record IssueBulkDelete := mkIssueBulkDelete { bd_issue_ids : list Z }.

(** One entry of [CSVImportResult.errors]. *)
Record RowError := mkRowError { row : Z; error : string }.

Record CSVImportResult := mkCSVImportResult {
  total_rows : Z;
  successful : Z;
  failed : Z;
  errors : list RowError
}.

(** ** The table *)

Record Db := mkDb { issues : list Issue; next_id : Z }.

(** Construction of an [Issue] from the dumped fields, [db.add] and
    [db.commit]: the row receives the
    next key, both timestamps from the server clock and the column default
    [version = 1]. *)
Definition new_issue (key now : Z) (c : IssueCreate) : Issue :=
  mkIssue key (ic_title c) (ic_description c) (ic_status c) (ic_priority c)
          (ic_assignee c) (ic_reporter c) now now 1.

Definition db_add (now : Z) (c : IssueCreate) (db : Db) : Db :=
  mkDb (issues db ++ [new_issue (next_id db) now c]) (next_id db + 1).

(** ** csv_import.py *)

Module Csv.

(** [row.get(key, default)] *)
Definition get (r : gmap string (option string)) (key default : string) : option string :=
  match r !! key with
  | Some v => v
  | None => Some default
  end.

(** [v.strip()] where [v] may be [None]. *)
Definition strip (v : option string) : Raises string :=
  match v with
  | Some s => ret (Text.strip s)
  | None => raise (AttributeError "'NoneType' object has no attribute 'strip'")
  end.

(** The [if]/[elif] chain over [status_str]. *)
Definition parse_status (status_str : string) : StatusEnum :=
  if String.eqb status_str "in progress" || String.eqb status_str "in_progress"
  then IN_PROGRESS
  else if String.eqb status_str "open" then OPEN
  else if String.eqb status_str "resolved" then RESOLVED
  else if String.eqb status_str "closed" then CLOSED
  else OPEN.

(** The [if]/[elif] chain over [priority_str]. *)
Definition parse_priority (priority_str : string) : PriorityEnum :=
  if String.eqb priority_str "low" then LOW
  else if String.eqb priority_str "medium" then MEDIUM
  else if String.eqb priority_str "high" then HIGH
  else if String.eqb priority_str "critical" then CRITICAL
  else MEDIUM.

(** Normalisation of a raw token: trim, lowercase, then the chain. *)
Definition normalize_status (token : string) : StatusEnum :=
  parse_status (Text.lower (Text.strip token)).

Definition normalize_priority (token : string) : PriorityEnum :=
  parse_priority (Text.lower (Text.strip token)).

Definition title_required : string := "Title is required and cannot be empty".

(** The body of the [try] block of [parse_csv_row]. *)
Definition parse_csv_row_try (r : gmap string (option string)) (row_number : Z)
    : Raises (option IssueCreate * option RowError) :=
  status_str <-! Csv.strip (get r "status" "open");
  let status := parse_status (Text.lower status_str) in
  priority_str <-! Csv.strip (get r "priority" "medium");
  let priority := parse_priority (Text.lower priority_str) in
  title <-! Csv.strip (get r "title" EmptyString);
  description <-! Csv.strip (get r "description" EmptyString);
  assignee <-! Csv.strip (get r "assignee" EmptyString);
  reporter <-! Csv.strip (get r "reporter" EmptyString);
  issue <-! IssueCreate_new title (Text.or_None description) status priority
              (Text.or_None assignee) (Text.or_None reporter);
  if negb (Text.truthy (ic_title issue))
  then ret (None, Some (mkRowError row_number title_required))
  else ret (Some issue, None).

Section Importer.

(** [str(e)] of a caught exception. *)
Variable str : Exception -> string.
(** The server clock at the commit of the row with a given number. *)
Variable clock : Z -> Z.
(** The exception, if any, with which the storage layer fails the commit
    of the row with a given number. *)
Variable commit_fault : Z -> option Exception.

Definition parse_csv_row (r : gmap string (option string)) (row_number : Z)
    : option IssueCreate * option RowError :=
  match parse_csv_row_try r row_number with
  | inr res => res
  | inl e => (None, Some (mkRowError row_number ("Parsing error: " +:+ str e)))
  end.

(** [db.add(db_issue); db.commit()] inside the loop. *)
Definition add_commit (row_number : Z) (c : IssueCreate) (db : Db) : Raises Db :=
  match commit_fault row_number with
  | Some e => raise e
  | None => ret (db_add (clock row_number) c db)
  end.

(** The local variables of [import_issues_from_csv] and the table. *)
Record Loop := mkLoop {
  l_total_rows : Z;
  l_successful : Z;
  l_failed : Z;
  l_errors : list RowError;
  l_db : Db
}.

(** One iteration of the [for] loop. *)
Definition import_row (row_number : Z) (r : gmap string (option string)) (st : Loop)
    : Loop :=
  let total_rows := l_total_rows st + 1 in
  match parse_csv_row r row_number with
  | (_, Some error) =>
      mkLoop total_rows (l_successful st) (l_failed st + 1)
             (l_errors st ++ [error]) (l_db st)
  | (Some issue_data, None) =>
      match add_commit row_number issue_data (l_db st) with
      | inr db' =>
          mkLoop total_rows (l_successful st + 1) (l_failed st) (l_errors st) db'
      | inl e =>
          (* db.rollback() *)
          mkLoop total_rows (l_successful st) (l_failed st + 1)
                 (l_errors st ++ [mkRowError row_number ("Database error: " +:+ str e)])
                 (l_db st)
      end
  | (None, None) =>
      (* [issue_data.model_dump()] on [None] raises inside the second [try] *)
      let e := AttributeError "'NoneType' object has no attribute 'model_dump'" in
      mkLoop total_rows (l_successful st) (l_failed st + 1)
             (l_errors st ++ [mkRowError row_number ("Database error: " +:+ str e)])
             (l_db st)
  end.

(** [for row_number, row in enumerate(reader, start=...)] *)
Fixpoint import_loop (row_number : Z) (reader : list (gmap string (option string)))
    (st : Loop) : Loop :=
  match reader with
  | [] => st
  | r :: reader' => import_loop (row_number + 1) reader' (import_row row_number r st)
  end.

(** [import_issues_from_csv], from the rows that [csv.DictReader] yields. *)
Definition import_issues_from_csv (reader : list (gmap string (option string)))
    (db : Db) : CSVImportResult * Db :=
  let st := import_loop 2 reader (mkLoop 0 0 0 [] db) in
  (mkCSVImportResult (l_total_rows st) (l_successful st) (l_failed st) (l_errors st),
   l_db st).

End Importer.

End Csv.

(** ** The query layer *)

Module Sql.

(** [LIKE]: [%] matches any run of characters, [_] any one character of
    the ASCII range, every other pattern character matches itself. *)
Fixpoint like (pattern : string) : string -> bool :=
  match pattern with
  | EmptyString => fun s => match s with EmptyString => true | _ => false end
  | String p pattern' =>
      if Ascii.eqb p "%" then
        fix any (s : string) : bool :=
          like pattern' s || match s with EmptyString => false | String _ s' => any s' end
      else if Ascii.eqb p "_" then
        fun s => match s with EmptyString => false | String _ s' => like pattern' s' end
      else
        fun s => match s with
                 | EmptyString => false
                 | String c s' => Ascii.eqb p c && like pattern' s'
                 end
  end.

(** [column.ilike(pattern)]: [lower(column) LIKE lower(pattern)]. *)
Definition ilike (column pattern : string) : bool :=
  like (Text.lower pattern) (Text.lower column).

(** [ilike] on a nullable column: [NULL] is not selected. *)
Definition ilike_null (column : option string) (pattern : string) : bool :=
  match column with Some c => ilike c pattern | None => false end.

(** [query.filter(Issue.id == key).first()], with the position of the row. *)
Definition first_by_id (key : Z) (db : Db) : option (nat * Issue) :=
  list_find (fun i => id i = key) (issues db).

(** [query.filter(Issue.id.in_(keys)).all()] *)
Definition all_by_ids (keys : list Z) (db : Db) : list Issue :=
  filter (fun i => id i ∈ keys) (issues db).

(** [query.filter(p).count()] *)
Definition count (P : Issue -> Prop) `{!forall i, Decision (P i)} (db : Db) : Z :=
  Z.of_nat (length (filter P (issues db))).

(** [query.offset(skip).limit(limit)] *)
Definition offset_limit {A} (skip limit : Z) (l : list A) : list A :=
  take (Z.to_nat limit) (drop (Z.to_nat skip) l).

End Sql.

(** ** main.py *)

Definition create_issue (now : Z) (issue : IssueCreate) (db : Db) : Issue * Db :=
  let db_issue := new_issue (next_id db) now issue in
  (db_issue, db_add now issue db).

(** *** Analytics *)

Record IssueStats := mkIssueStats {
  st_total_issues : Z;
  st_by_status : gmap string Z;
  st_by_priority : gmap string Z;
  st_by_assignee : gmap string Z
}.

Record IssueSummary := mkIssueSummary {
  su_total_issues : Z;
  su_open_issues : Z;
  su_in_progress_issues : Z;
  su_resolved_issues : Z;
  su_closed_issues : Z;
  su_critical_priority : Z;
  su_high_priority : Z;
  su_medium_priority : Z;
  su_low_priority : Z
}.

(** The rows of the [group_by(Issue.assignee)] query: one pair per distinct
    non-null assignee, with the number of issues that carry it. *)
Definition assignee_counts (db : Db) : list (string * Z) :=
  (fun a => (a, Sql.count (fun i => assignee i = Some a) db))
    <$> remove_dups (omap assignee (issues db)).

Definition get_issue_stats (db : Db) : IssueStats :=
  let total_issues := Sql.count (fun _ => True) db in
  let by_status :=
    foldl (fun d status_enum =>
             <[status_value status_enum := Sql.count (fun i => status i = status_enum) db]> d)
          ∅ all_StatusEnum in
  let by_priority :=
    foldl (fun d priority_enum =>
             <[priority_value priority_enum :=
                 Sql.count (fun i => priority i = priority_enum) db]> d)
          ∅ all_PriorityEnum in
  let by_assignee :=
    foldl (fun d ac => <[ac.1 := ac.2]> d) ∅ (assignee_counts db) in
  let by_assignee :=
    <["unassigned" := Sql.count (fun i => assignee i = None) db]> by_assignee in
  mkIssueStats total_issues by_status by_priority by_assignee.

Definition get_issue_summary (db : Db) : IssueSummary :=
  mkIssueSummary
    (Sql.count (fun _ => True) db)
    (Sql.count (fun i => status i = OPEN) db)
    (Sql.count (fun i => status i = IN_PROGRESS) db)
    (Sql.count (fun i => status i = RESOLVED) db)
    (Sql.count (fun i => status i = CLOSED) db)
    (Sql.count (fun i => priority i = CRITICAL) db)
    (Sql.count (fun i => priority i = HIGH) db)
    (Sql.count (fun i => priority i = MEDIUM) db)
    (Sql.count (fun i => priority i = LOW) db).

(** *** Bulk operations *)

Record BulkUpdated := mkBulkUpdated {
  bu_message : string;
  updated_count : Z;
  updated_ids : list Z
}.

Record BulkDeleted := mkBulkDeleted {
  bd_message : string;
  deleted_count : Z;
  deleted_ids : list Z
}.

Definition not_found_bulk : Exception :=
  HTTPException 404 "No issues found with the provided IDs".

(** The body of the [for issue in issues] loop of [bulk_update_issues],
    followed by the [onupdate] refresh of [updated_at] at the commit. *)
Definition bulk_assign (now : Z) (bulk_update : IssueBulkUpdate) (issue : Issue) : Issue :=
  mkIssue (id issue) (title issue) (description issue)
    (match bu_status bulk_update with Some s => s | None => status issue end)
    (match bu_priority bulk_update with Some p => p | None => priority issue end)
    (match bu_assignee bulk_update with Some a => Some a | None => assignee issue end)
    (reporter issue) (created_at issue) now (version issue + 1).

Definition bulk_update_issues (now : Z) (bulk_update : IssueBulkUpdate) (db : Db)
    : Raises BulkUpdated * Db :=
  let issues_ := Sql.all_by_ids (bu_issue_ids bulk_update) db in
  match issues_ with
  | [] => (raise not_found_bulk, db)
  | _ =>
      let updated_count := foldl (fun n _ => n + 1) 0 issues_ in
      let db' :=
        mkDb ((fun i => if decide (id i ∈ bu_issue_ids bulk_update)
                        then bulk_assign now bulk_update i else i) <$> issues db)
             (next_id db) in
      (ret (mkBulkUpdated
              ("Successfully updated " +:+ pretty updated_count +:+ " issue(s)")
              updated_count (id <$> issues_)),
       db')
  end.

Definition bulk_delete_issues (bulk_delete : IssueBulkDelete) (db : Db)
    : Raises BulkDeleted * Db :=
  let issues_ := Sql.all_by_ids (bd_issue_ids bulk_delete) db in
  match issues_ with
  | [] => (raise not_found_bulk, db)
  | _ =>
      let deleted_count := Z.of_nat (length issues_) in
      let deleted_ids := id <$> issues_ in
      let db' :=
        mkDb (filter (fun i => id i ∉ bd_issue_ids bulk_delete) (issues db)) (next_id db) in
      (ret (mkBulkDeleted
              ("Successfully deleted " +:+ pretty deleted_count +:+ " issue(s)")
              deleted_count deleted_ids),
       db')
  end.

(** *** Single issue operations *)

Definition not_found (issue_id : Z) : Exception :=
  HTTPException 404 ("Issue with ID " +:+ pretty issue_id +:+ " not found").

Definition version_conflict (expected current : Z) : Exception :=
  HTTPException 409
    ("Version conflict: expected version " +:+ pretty expected
     +:+ ", but current version is " +:+ pretty current).

Definition get_issue (issue_id : Z) (db : Db) : Raises Issue :=
  match Sql.first_by_id issue_id db with
  | None => raise (not_found issue_id)
  | Some (_, issue) => ret issue
  end.

(** [setattr] of one optional entry of [update_data]: an unset field keeps
    the stored value. *)
Definition setattr {A} (field : option A) (stored : A) : A :=
  match field with Some v => v | None => stored end.

(** The [NOT NULL] columns that [update_data] sets to [None], in the order
    of the fields of [IssueUpdate]. *)
Definition null_columns (issue_update : IssueUpdate) : list string :=
  (match iu_title issue_update with Some None => ["issues.title"] | _ => [] end)
  ++ (match iu_status issue_update with Some None => ["issues.status"] | _ => [] end)
  ++ (match iu_priority issue_update with Some None => ["issues.priority"] | _ => [] end).

(** The [for field, value in update_data.items()] loop, the increment of
    [version] and the [onupdate] refresh of [updated_at]. *)
Definition apply_update (now : Z) (issue_update : IssueUpdate) (db_issue : Issue) : Issue :=
  mkIssue (id db_issue)
    (match iu_title issue_update with Some (Some t) => t | _ => title db_issue end)
    (setattr (iu_description issue_update) (description db_issue))
    (match iu_status issue_update with Some (Some s) => s | _ => status db_issue end)
    (match iu_priority issue_update with Some (Some p) => p | _ => priority db_issue end)
    (setattr (iu_assignee issue_update) (assignee db_issue))
    (setattr (iu_reporter issue_update) (reporter db_issue))
    (created_at db_issue) now (version db_issue + 1).

(** The part of [update_issue] after the version check. *)
Definition commit_update (now : Z) (k : nat) (issue_update : IssueUpdate)
    (db_issue : Issue) (db : Db) : Raises Issue * Db :=
  match null_columns issue_update with
  | column :: _ => (raise (IntegrityError column), db)
  | [] =>
      let db_issue' := apply_update now issue_update db_issue in
      (ret db_issue', mkDb (<[k := db_issue']> (issues db)) (next_id db))
  end.

Definition update_issue (now : Z) (issue_id : Z) (issue_update : IssueUpdate) (db : Db)
    : Raises Issue * Db :=
  match Sql.first_by_id issue_id db with
  | None => (raise (not_found issue_id), db)
  | Some (k, db_issue) =>
      match iu_version issue_update with
      | Some v =>
          if decide (version db_issue ≠ v)
          then (raise (version_conflict v (version db_issue)), db)
          else commit_update now k issue_update db_issue db
      | None => commit_update now k issue_update db_issue db
      end
  end.

Definition delete_issue (issue_id : Z) (db : Db) : Raises unit * Db :=
  match Sql.first_by_id issue_id db with
  | None => (raise (not_found issue_id), db)
  | Some (k, _) => (ret tt, mkDb (delete k (issues db)) (next_id db))
  end.

(** *** Listing *)

(** The query parameters of [list_issues] after binding. *)
Record ListParams := mkListParams {
  status_filter : option StatusEnum;
  q_priority : option PriorityEnum;
  q_assignee : option string;
  search : option string;
  skip : Z;
  limit : Z
}.

(** [if status_filter:] and [if priority:] test a string enumeration member,
    which is truthy when its value is a non-empty string. *)
Definition truthy_opt (s : option string) : bool :=
  match s with Some s => Text.truthy s | None => false end.

(** The conjunction of the [filter] calls that [list_issues] adds. *)
Definition selected (p : ListParams) (i : Issue) : bool :=
  (if truthy_opt (status_value <$> status_filter p)
   then bool_decide (Some (status i) = status_filter p) else true)
  && (if truthy_opt (priority_value <$> q_priority p)
      then bool_decide (Some (priority i) = q_priority p) else true)
  && (if truthy_opt (q_assignee p)
      then bool_decide (assignee i = q_assignee p) else true)
  && (if truthy_opt (search p)
      then let search_pattern := "%" +:+ default EmptyString (search p) +:+ "%" in
           Sql.ilike (title i) search_pattern
           || Sql.ilike_null (description i) search_pattern
      else true).

Section Listing.

(** [ORDER BY issues.created_at DESC] as the storage engine evaluates it.
    The statement names no second key. *)
Variable order_by_created_at_desc : list Issue -> list Issue.

Definition list_issues (p : ListParams) (db : Db) : list Issue :=
  let query := filter (fun i => selected p i = true) (issues db) in
  Sql.offset_limit (skip p) (limit p) (order_by_created_at_desc query).




End Listing.

(** ** Storage engines

    [ORDER BY created_at DESC] is evaluated by the database engine, which is
    no part of the sources. The functions of this module are sorting
    functions that meet the statement; they stand in for the engine where
    an instance of it is needed. *)

Module Engine.

Definition newest_first : relation Issue :=
  fun a b => created_at b <= created_at a.

#[global] Instance newest_first_dec : RelDecision newest_first.
Proof. intros a b. unfold newest_first. apply _. Defined.

(** Sorting by merging runs of the table scan. *)
Definition scan_order (l : list Issue) : list Issue := merge_sort newest_first l.

(** Sorting by insertion: a row goes behind the rows that are newer and
    before the rows of the same or of an older instant. *)
Fixpoint insert_newest (x : Issue) (l : list Issue) : list Issue :=
  match l with
  | [] => [x]
  | y :: l' =>
      if decide (created_at x < created_at y)
      then y :: insert_newest x l'
      else x :: y :: l'
  end.

Definition insertion_order (l : list Issue) : list Issue :=
  foldr insert_newest [] l.

End Engine.

(** ** Requests that change the table *)

Inductive Request :=
| CreateIssue (now : Z) (issue : IssueCreate)
| UpdateIssue (now : Z) (issue_id : Z) (issue_update : IssueUpdate)
| DeleteIssue (issue_id : Z)
| BulkUpdate (now : Z) (bulk_update : IssueBulkUpdate)
| BulkDelete (bulk_delete : IssueBulkDelete)
| ImportCsv (str : Exception -> string) (clock : Z -> Z)
            (commit_fault : Z -> option Exception)
            (reader : list (gmap string (option string))).

(** The table after a request. *)
Definition handle (r : Request) (db : Db) : Db :=
  match r with
  | CreateIssue now issue => (create_issue now issue db).2
  | UpdateIssue now issue_id issue_update => (update_issue now issue_id issue_update db).2
  | DeleteIssue issue_id => (delete_issue issue_id db).2
  | BulkUpdate now bulk_update => (bulk_update_issues now bulk_update db).2
  | BulkDelete bulk_delete => (bulk_delete_issues bulk_delete db).2
  | ImportCsv str clock commit_fault reader =>
      (Csv.import_issues_from_csv str clock commit_fault reader db).2
  end.

(** ** Specification vocabulary *)

(** [needle] occurs in [hay]. *)
Definition contains (needle hay : string) : Prop :=
  exists pre post, hay = pre +:+ needle +:+ post.

(** [needle] occurs in [hay] when case is ignored. *)
Definition contains_ci (needle hay : string) : Prop :=
  contains (Text.lower needle) (Text.lower hay).

(** No [LIKE] wildcard occurs in [s]. *)
Fixpoint wildcard_free (s : string) : Prop :=
  match s with
  | EmptyString => True
  | String c s' => c <> "%"%char /\ c <> "_"%char /\ wildcard_free s'
  end.

(** What a query asks for, in the words of the filter description: every
    filter that is given and is not the empty string must hold. *)
Definition Matches (p : ListParams) (i : Issue) : Prop :=
  (forall s, status_filter p = Some s -> status i = s)
  /\ (forall q, q_priority p = Some q -> priority i = q)
  /\ (forall a, q_assignee p = Some a -> a <> EmptyString -> assignee i = Some a)
  /\ (forall t, search p = Some t -> t <> EmptyString ->
        contains_ci t (title i)
        \/ exists d, description i = Some d /\ contains_ci t d).

(** The sum of the values of a dictionary of counters. *)
Definition sum_values (d : gmap string Z) : Z :=
  map_fold (fun _ v acc => v + acc) 0 d.

(** Keys are unique and below the next value of the sequence. *)
Definition keys_fresh (db : Db) : Prop :=
  NoDup (id <$> issues db) /\ forall i, i ∈ issues db -> id i < next_id db.

(** The rows of [l] are in [created_at] descending order. *)
Definition newest_first_sorted (l : list Issue) : Prop :=
  StronglySorted Engine.newest_first l.

(** What the statement [ORDER BY created_at DESC] asks of the engine. *)
Definition answers_order_by (order_by : list Issue -> list Issue) : Prop :=
  (forall l, order_by l ≡ₚ l) /\ (forall l, newest_first_sorted (order_by l)).

(** Modelled from the spec: the order that [ORDER BY created_at DESC] gives
    to rows with equal [created_at]. The query names no second key, and the
    engine that decides the order is set up in [database.py], which is not
    among the sources; the spec says that ties are broken by insertion
    order, stably. So the rows of one instant come out in the order in
    which the engine was given them, which is the order of the table. *)
Definition ties_in_insertion_order (order_by : list Issue -> list Issue) : Prop :=
  forall l t,
    filter (fun i => created_at i = t) (order_by l)
    = filter (fun i => created_at i = t) l.

Definition key_before : relation Issue := fun a b => id a < id b.

(** The table holds its rows in ascending key order, the order in which
    they were inserted. *)
Definition keys_ascending (db : Db) : Prop :=
  StronglySorted key_before (issues db).


(** One row of a CSV file imported on its own: zero counters, empty table. *)
Definition isolated (str : Exception -> string) (clock : Z -> Z)
    (commit_fault : Z -> option Exception)
    (row_number : Z) (r : gmap string (option string)) : Csv.Loop :=
  Csv.import_row str clock commit_fault row_number r
    (Csv.mkLoop 0 0 0 [] (mkDb [] 0)).

(** The rows of a file, each imported on its own under its row number. *)
Fixpoint isolated_rows (str : Exception -> string) (clock : Z -> Z)
    (commit_fault : Z -> option Exception)
    (row_number : Z) (reader : list (gmap string (option string))) : list Csv.Loop :=
  match reader with
  | [] => []
  | r :: reader' =>
      isolated str clock commit_fault row_number r
      :: isolated_rows str clock commit_fault (row_number + 1) reader'
  end.

(** ** csv_import.py: the reader's records and the export *)

Module CsvIO.

(** What [csv.DictReader] makes of one record under the field names of the
    header: [dict(zip(fieldnames, row))], then [None] for every field name
    that a short record leaves without value. The surplus values of a long
    record go under the key [None], which the importer never reads. *)
Definition dict_row (fieldnames row : list string) : gmap string (option string) :=
  let d := foldl (fun d kv => <[kv.1 := Some kv.2]> d) ∅ (zip fieldnames row) in
  foldl (fun d key => <[key := None]> d) d (drop (length row) fieldnames).

(** [csv.DictReader] over the records that [csv.reader] yields: the first
    record is the header, records without any field are skipped. *)
Definition DictReader (records : list (list string))
    : list (gmap string (option string)) :=
  match records with
  | [] => []
  | fieldnames :: rows => dict_row fieldnames <$> filter (fun r => r <> []) rows
  end.

(** The [fieldnames] of [export_issues_to_csv]. *)
Definition fieldnames : list string :=
  ["id"; "title"; "description"; "status"; "priority"; "assignee"; "reporter";
   "created_at"; "updated_at"].

(** [value or ''] on an optional string. *)
Definition or_empty (value : option string) : string :=
  match value with
  | Some s => if Text.truthy s then s else EmptyString
  | None => EmptyString
  end.

Section Exporter.

(** [datetime.isoformat()] of a timestamp. *)
Variable isoformat : Z -> string.
(** The text that [csv.writer] leaves in the buffer for the records written
    to it, in order. *)
Variable getvalue : list (list string) -> string.

(** The dictionary that the loop hands to [writer.writerow]. *)
Definition export_dict (issue : Issue) : gmap string string :=
  {[ "id" := pretty (id issue);
     "title" := title issue;
     "description" := or_empty (description issue);
     "status" := status_value (status issue);
     "priority" := priority_value (priority issue);
     "assignee" := or_empty (assignee issue);
     "reporter" := or_empty (reporter issue);
     "created_at" := isoformat (created_at issue);
     "updated_at" := isoformat (updated_at issue) ]}.

(** [DictWriter.writerow]: the values in the order of the field names, the
    empty string for a field name that the dictionary lacks. *)
Definition writerow (rowdict : gmap string string) : list string :=
  (fun key => default EmptyString (rowdict !! key)) <$> fieldnames.

(** The records written: the header, then one record per issue. *)
Definition export_records (issues : list Issue) : list (list string) :=
  fieldnames :: ((fun issue => writerow (export_dict issue)) <$> issues).


End Exporter.

End CsvIO.

(** ** main.py: the CSV handlers *)

(** [s.endswith(suffix)] *)
Fixpoint string_drop (n : nat) (s : string) : string :=
  match n, s with
  | O, _ => s
  | S n', String _ s' => string_drop n' s'
  | S _, EmptyString => EmptyString
  end.

Definition endswith (s suffix : string) : bool :=
  (String.length suffix <=? String.length s)%nat
  && String.eqb (string_drop (String.length s - String.length suffix) s) suffix.

Section CsvHandlers.

Variable str : Exception -> string.
Variable clock : Z -> Z.
Variable commit_fault : Z -> option Exception.
Variable order_by_created_at_desc : list Issue -> list Issue.
Variable isoformat : Z -> string.
Variable getvalue : list (list string) -> string.

(** [import_csv]: the upload is given by its file name and by the rows that
    the reader yields for its content. *)
Definition import_csv (filename : string) (reader : list (gmap string (option string)))
    (db : Db) : Raises CSVImportResult * Db :=
  if negb (endswith filename ".csv")
  then (raise (HTTPException 400 "File must be a CSV file"), db)
  else
    let (result, db') := Csv.import_issues_from_csv str clock commit_fault reader db in
    (ret result, db').





End CsvHandlers.

(** ** Vocabulary for the further properties *)

(** A text field that the importer stores as it is: trimmed and not empty. *)
Definition kept_text (s : string) : Prop :=
  Text.strip s = s /\ s <> EmptyString.

(** An optional field that the importer stores as it is. *)
Definition kept_opt (bound : option Z) (o : option string) : Prop :=
  match o with
  | None => True
  | Some s => kept_text s /\ match bound with Some n => Text.len s <= n | None => True end
  end.

(** An issue whose six data fields survive export and import. *)
Definition importable (i : Issue) : Prop :=
  kept_text (title i) /\ Text.len (title i) <= 200
  /\ kept_opt None (description i)
  /\ kept_opt (Some 100) (assignee i)
  /\ kept_opt (Some 100) (reporter i).

(** The value of a column of a CSV row after [strip], when it is a string. *)
Definition column (r : gmap string (option string)) (key default : string)
    : option string :=
  Text.strip <$> Csv.get r key default.

(** The fields of an [IssueCreate] meet the constraints of the schema. *)
Definition valid_create (c : IssueCreate) : Prop :=
  1 <= Text.len (ic_title c) <= 200
  /\ (forall a, ic_assignee c = Some a -> Text.len a <= 100)
  /\ (forall p, ic_reporter c = Some p -> Text.len p <= 100).

(** The one-issue update that a bulk update of one key amounts to. *)
Definition as_single_update (bu : IssueBulkUpdate) : IssueUpdate :=
  mkIssueUpdate None None
    (match bu_status bu with Some s => Some (Some s) | None => None end)
    (match bu_priority bu with Some p => Some (Some p) | None => None end)
    (match bu_assignee bu with Some a => Some (Some a) | None => None end)
    None None.

(** Number of issues whose assignee is the given string. *)
Definition assigned_to (a : string) (db : Db) : Z :=
  Sql.count (fun i => assignee i = Some a) db.

(** ** Sample data *)

Module Sample.

Definition csv_row (title description : string) : gmap string (option string) :=
  {[ "title" := Some title; "description" := Some description ]}.

(** Five data rows; the third has a title of blanks only. *)
Definition five_rows : list (gmap string (option string)) :=
  [ csv_row "Login fails" "500 on submit";
    csv_row "Crash on start" "segfault";
    csv_row "   " "no title";
    csv_row "Slow search" "takes 10 s";
    csv_row "Typo in footer" "copyrigth" ].

Definition empty_db : Db := mkDb [] 1.

Definition no_fault : Z -> option Exception := fun _ => None.

Definition issue_v3 : Issue :=
  mkIssue 7 "Login fails" None OPEN HIGH (Some "alice") None 100 120 3.

Definition db_v3 : Db := mkDb [issue_v3] 8.

(** An update that supplies the stale version 2 and a new title. *)
Definition stale_update : IssueUpdate :=
  mkIssueUpdate (Some (Some "Login works")) None None None None None (Some 2).

(** Two issues created at the same instant, and an older one. *)
Definition same_time_db : Db :=
  mkDb [ mkIssue 1 "Crash on start" (Some "a bug in init") OPEN HIGH
           (Some "alice") None 50 50 1;
         mkIssue 2 "Slow search" None OPEN LOW (Some "bob") None 50 60 2;
         mkIssue 3 "Login bug" None CLOSED LOW (Some "alice") None 40 40 1 ] 4.


(** Three issues created at three different instants, the second one last. *)
Definition three_instants_db : Db :=
  mkDb [ mkIssue 1 "Crash on start" None OPEN HIGH (Some "alice") None 10 10 1;
         mkIssue 2 "Slow search" None OPEN LOW (Some "bob") None 30 35 2;
         mkIssue 3 "Login bug" None CLOSED LOW None None 20 20 1 ] 4.

(** The assignee filter with the empty string. *)
Definition assignee_empty : ListParams :=
  mkListParams None None (Some EmptyString) None 0 100.

(** Issues of alice that mention a bug. *)
Definition alice_bug : ListParams :=
  mkListParams None None (Some "alice") (Some "BUG") 0 100.

(** A new issue for [db_v3]. *)
Definition new_row : IssueCreate :=
  mkIssueCreate "Typo in footer" None OPEN LOW None (Some "carol").

(** An update of [issue_v3] that supplies the current version 3. *)
Definition fresh_update : IssueUpdate :=
  mkIssueUpdate None (Some None) (Some (Some RESOLVED)) None None None (Some 3).

(** A bulk update of the one key 7. *)
Definition bulk_one : IssueBulkUpdate :=
  mkIssueBulkUpdate [7] (Some CLOSED) None (Some "bob").

End Sample.

(** * Properties *)

(** ** Text *)

Section TextFacts.

(** The characters of a text are the text, cut into pieces. *)
Lemma join_chars (s : string) : Text.join (Text.chars s) = s.
Proof.
  induction s as [|c s IH]; [done|]. simpl.
  destruct (Text.chars s) as [|ch rest].
  - simpl in *. by rewrite <- IH.
  - change (Text.join (ch :: rest)) with (ch +:+ Text.join rest) in IH.
    destruct (Text.starts_with_continuation ch).
    + change (String c (ch +:+ Text.join rest) = String c s). by rewrite IH.
    + change (String c (ch +:+ Text.join rest) = String c s). by rewrite IH.
Qed.

Lemma lstrip_chars_spec (l : list string) :
  exists pre,
    l = pre ++ Text.lstrip_chars l
    /\ Forall (fun ch => Text.isspace ch = true) pre
    /\ (forall ch, head (Text.lstrip_chars l) = Some ch -> Text.isspace ch = false).
Proof.
  induction l as [|ch l (pre & Hl & Hpre & Hhd)]; simpl.
  - exists []. repeat split; [constructor|discriminate].
  - destruct (Text.isspace ch) eqn:Hch.
    + exists (ch :: pre). split; [simpl; by rewrite <- Hl|]. split; [by constructor|done].
    + exists []. split; [done|]. split; [constructor|]. by intros ? [= <-].
Qed.

(** [strip] removes a run of white space at each end, and what it leaves
    neither starts nor ends with white space. *)
Lemma strip_spec (s : string) :
  exists pre mid post,
    Text.chars s = pre ++ mid ++ post
    /\ Text.strip s = Text.join mid
    /\ Forall (fun ch => Text.isspace ch = true) pre
    /\ Forall (fun ch => Text.isspace ch = true) post
    /\ (forall ch, head mid = Some ch -> Text.isspace ch = false)
    /\ (forall ch, last mid = Some ch -> Text.isspace ch = false).
Proof.
  unfold Text.strip, Text.rstrip_chars.
  destruct (lstrip_chars_spec (Text.chars s)) as (pre & Hl & Hpre & Hhd).
  set (l := Text.lstrip_chars (Text.chars s)) in *.
  destruct (lstrip_chars_spec (reverse l)) as (post & Hr & Hpost & Hlast).
  set (m := Text.lstrip_chars (reverse l)) in *.
  assert (Hl' : l = reverse m ++ reverse post).
  { rewrite <- reverse_app, <- Hr. by rewrite reverse_involutive. }
  exists pre, (reverse m), (reverse post).
  split; [by rewrite <- Hl'|]. split; [done|]. split; [done|].
  split; [by apply Forall_reverse|]. split.
  - intros ch Hch. apply Hhd. rewrite Hl'.
    destruct (reverse m); [discriminate|]. exact Hch.
  - intros ch Hch. apply Hlast. by rewrite last_reverse in Hch.
Qed.

End TextFacts.

(** ** Lists *)

Section ListFacts.

Context {A : Type}.

Lemma filter_ext_elem (P Q : A -> Prop)
    `{!forall x, Decision (P x), !forall x, Decision (Q x)} (l : list A) :
  (forall x, x ∈ l -> P x <-> Q x) -> filter P l = filter Q l.
Proof.
  induction l as [|a l IH]; intros Hext; [done|].
  rewrite !filter_cons.
  assert (Ha : P a <-> Q a) by (apply Hext; left).
  rewrite IH by (intros x Hx; apply Hext; by right).
  destruct (decide (P a)), (decide (Q a)); tauto.
Qed.

Lemma fmap_ext_elem {B} (f g : A -> B) (l : list A) :
  (forall x, x ∈ l -> f x = g x) -> f <$> l = g <$> l.
Proof.
  induction l as [|a l IH]; intros Hext; [done|]. csimpl.
  rewrite Hext by left. rewrite IH; [done|]. intros x Hx. apply Hext. by right.
Qed.

Lemma count_loop (l : list A) (n : Z) :
  foldl (fun n _ => n + 1) n l = n + Z.of_nat (length l).
Proof.
  revert n. induction l as [|a l IH]; intros n; simpl; [lia|]. rewrite IH. lia.
Qed.

End ListFacts.

(** ** Enum normalisation *)

Section Normalizer.

Local Ltac chain :=
  repeat match goal with
         | |- context [String.eqb ?a ?b] =>
             let E := fresh "E" in
             destruct (String.eqb a b) eqn:E;
             [apply String.eqb_eq in E | apply String.eqb_neq in E]
         end.

Lemma parse_status_cases (t : string) :
  ((t = "in progress" \/ t = "in_progress") -> Csv.parse_status t = IN_PROGRESS)
  /\ (t = "open" -> Csv.parse_status t = OPEN)
  /\ (t = "resolved" -> Csv.parse_status t = RESOLVED)
  /\ (t = "closed" -> Csv.parse_status t = CLOSED)
  /\ (t ∉ ["in progress"; "in_progress"; "resolved"; "closed"] ->
      Csv.parse_status t = OPEN).
Proof.
  repeat split.
  - intros [-> | ->]; reflexivity.
  - intros ->; reflexivity.
  - intros ->; reflexivity.
  - intros ->; reflexivity.
  - intros Hnot. unfold Csv.parse_status. chain; simpl; try reflexivity;
      exfalso; apply Hnot; subst; set_solver.
Qed.

Lemma parse_priority_cases (t : string) :
  (t = "low" -> Csv.parse_priority t = LOW)
  /\ (t = "medium" -> Csv.parse_priority t = MEDIUM)
  /\ (t = "high" -> Csv.parse_priority t = HIGH)
  /\ (t = "critical" -> Csv.parse_priority t = CRITICAL)
  /\ (t ∉ ["low"; "high"; "critical"] -> Csv.parse_priority t = MEDIUM).
Proof.
  repeat split; try (intros ->; reflexivity).
  intros Hnot. unfold Csv.parse_priority. chain; simpl; try reflexivity;
    exfalso; apply Hnot; subst; set_solver.
Qed.

(** What [parse_csv_row] stores when the row parses: the normalised token
    of the column, or the default of [row.get] when the column is absent. *)
Lemma parse_csv_row_try_enums r n c :
  Csv.parse_csv_row_try r n = inr (Some c, None) ->
  ic_status c = Csv.normalize_status (default "open" (Csv.get r "status" "open"))
  /\ ic_priority c
     = Csv.normalize_priority (default "medium" (Csv.get r "priority" "medium")).
Proof.
  unfold Csv.parse_csv_row_try, Csv.normalize_status, Csv.normalize_priority.
  destruct (Csv.get r "status" "open") as [s|]; [|discriminate]; simpl.
  destruct (Csv.get r "priority" "medium") as [q|]; [|discriminate]; simpl.
  destruct (Csv.get r "title" EmptyString) as [t|]; [|discriminate]; simpl.
  destruct (Csv.get r "description" EmptyString) as [d|]; [|discriminate]; simpl.
  destruct (Csv.get r "assignee" EmptyString) as [a|]; [|discriminate]; simpl.
  destruct (Csv.get r "reporter" EmptyString) as [p|]; [|discriminate]; simpl.
  destruct (IssueCreate_new _ _ _ _ _ _) as [e|c'] eqn:Hnew; [discriminate|]; simpl.
  unfold IssueCreate_new in Hnew.
  destruct (_ ++ _) in Hnew; [|discriminate].
  injection Hnew as <-. simpl.
  destruct (negb _); intros [= <-]. done.
Qed.

End Normalizer.

(** On a token that is a string the normalisation is total: after trimming
    and lowercasing, the two spellings of in-progress give IN_PROGRESS, the
    three other status names give their value and every other token, the
    empty one included, gives OPEN; the four priority names give their value
    and every other token gives MEDIUM. A row whose header lacks the column
    gets the same defaults, and whenever a row parses, the stored status and
    priority are these normalised values. *)
Lemma normalization_of_strings :
  (forall token : string,
     let t := Text.lower (Text.strip token) in
     ((t = "in progress" \/ t = "in_progress") -> Csv.normalize_status token = IN_PROGRESS)
     /\ (t = "open" -> Csv.normalize_status token = OPEN)
     /\ (t = "resolved" -> Csv.normalize_status token = RESOLVED)
     /\ (t = "closed" -> Csv.normalize_status token = CLOSED)
     /\ (t ∉ ["in progress"; "in_progress"; "resolved"; "closed"] ->
         Csv.normalize_status token = OPEN)
     /\ (t = "low" -> Csv.normalize_priority token = LOW)
     /\ (t = "medium" -> Csv.normalize_priority token = MEDIUM)
     /\ (t = "high" -> Csv.normalize_priority token = HIGH)
     /\ (t = "critical" -> Csv.normalize_priority token = CRITICAL)
     /\ (t ∉ ["low"; "high"; "critical"] -> Csv.normalize_priority token = MEDIUM))
  /\ Csv.normalize_status EmptyString = OPEN
  /\ Csv.normalize_priority EmptyString = MEDIUM
  /\ Csv.normalize_status "  In Progress " = IN_PROGRESS
  /\ Csv.normalize_status "IN_PROGRESS" = IN_PROGRESS
  /\ Csv.normalize_priority " Critical" = CRITICAL
  /\ (forall r n c,
        Csv.parse_csv_row_try r n = inr (Some c, None) ->
        (forall s, r !! "status" = Some (Some s) -> ic_status c = Csv.normalize_status s)
        /\ (r !! "status" = None -> ic_status c = OPEN)
        /\ (forall s, r !! "priority" = Some (Some s) ->
              ic_priority c = Csv.normalize_priority s)
        /\ (r !! "priority" = None -> ic_priority c = MEDIUM)).
Proof.
  split; [|repeat split; try reflexivity].
  - intros token t.
    destruct (parse_status_cases t) as (?&?&?&?&?).
    destruct (parse_priority_cases t) as (?&?&?&?&?).
    unfold Csv.normalize_status, Csv.normalize_priority. fold t. repeat split; assumption.
  - intros s Hs. apply parse_csv_row_try_enums in H as [-> _].
    unfold Csv.get. by rewrite Hs.
  - intros Hs. apply parse_csv_row_try_enums in H as [-> _].
    unfold Csv.get. by rewrite Hs.
  - intros s Hs. apply parse_csv_row_try_enums in H as [_ ->].
    unfold Csv.get. by rewrite Hs.
  - intros Hs. apply parse_csv_row_try_enums in H as [_ ->].
    unfold Csv.get. by rewrite Hs.
Qed.

(** White space beyond ASCII is trimmed as well, and a character counts
    once whatever the number of its bytes. *)
Example unicode_white_space_is_trimmed :
  Csv.normalize_status ("closed" +:+ Text.NBSP) = CLOSED
  /\ Csv.normalize_priority (Text.EM_SPACE +:+ "High" +:+ Text.NEL) = HIGH
  /\ Text.strip (Text.NBSP +:+ Text.NBSP) = EmptyString
  /\ Text.strip (Text.IDEOGRAPHIC_SPACE +:+ "caf" +:+ Text.E_ACUTE +:+ Text.NBSP)
     = "caf" +:+ Text.E_ACUTE
  /\ Text.len ("caf" +:+ Text.E_ACUTE) = 4.
Proof. repeat split; vm_compute; reflexivity. Qed.

(** C6. A column that the header names and a short line leaves out reaches
    [parse_csv_row] as [None], not as a string and not as an absent key, so
    the default of [row.get] does not apply: the call of [strip] raises and
    the row is reported as a parsing error, whatever its other columns
    hold, where the same line with the two columns present and empty is
    imported with status OPEN and priority MEDIUM. *)
Theorem short_line_enum_raises (str : Exception -> string) :
  let e := AttributeError "'NoneType' object has no attribute 'strip'" in
  (forall r n,
     r !! "status" = Some None ->
     Csv.parse_csv_row_try r n = inl e
     /\ Csv.parse_csv_row str r n
        = (None, Some (mkRowError n ("Parsing error: " +:+ str e))))
  /\ (forall r n s,
        r !! "status" = Some (Some s) -> r !! "priority" = Some None ->
        Csv.parse_csv_row_try r n = inl e
        /\ Csv.parse_csv_row str r n
           = (None, Some (mkRowError n ("Parsing error: " +:+ str e))))
  /\ (forall clock commit_fault db,
        Csv.import_issues_from_csv str clock commit_fault
          (CsvIO.DictReader [ ["title"; "description"; "status"; "priority"];
                              ["Login fails"; "500 on submit"] ]) db
        = (mkCSVImportResult 1 0 1 [mkRowError 2 ("Parsing error: " +:+ str e)], db))
  /\ (forall clock db,
        Csv.import_issues_from_csv str clock Sample.no_fault
          (CsvIO.DictReader [ ["title"; "description"; "status"; "priority"];
                              ["Login fails"; "500 on submit"; ""; ""] ]) db
        = (mkCSVImportResult 1 1 0 [],
           db_add (clock 2)
             (mkIssueCreate "Login fails" (Some "500 on submit") OPEN MEDIUM None None)
             db)).
Proof.
  intros e.
  assert (Hstatus : forall r n, r !! "status" = Some None ->
                      Csv.parse_csv_row_try r n = inl e).
  { intros r n Hr. unfold Csv.parse_csv_row_try, Csv.get. by rewrite Hr. }
  assert (Hpriority : forall r n s, r !! "status" = Some (Some s) ->
                        r !! "priority" = Some None ->
                        Csv.parse_csv_row_try r n = inl e).
  { intros r n s Hr Hq. unfold Csv.parse_csv_row_try, Csv.get. rewrite Hr, Hq. done. }
  split; [|split; [|split]].
  - intros r n Hr. split; [by apply Hstatus|].
    unfold Csv.parse_csv_row. by rewrite (Hstatus r n Hr).
  - intros r n s Hr Hq. split; [by apply Hpriority with s|].
    unfold Csv.parse_csv_row. by rewrite (Hpriority r n s Hr Hq).
  - intros clock commit_fault db.
    unfold Csv.import_issues_from_csv, CsvIO.DictReader.
    rewrite filter_cons_True by discriminate. rewrite filter_nil, fmap_cons, fmap_nil.
    set (r := CsvIO.dict_row _ _).
    assert (Hr : r !! "status" = Some None) by (vm_compute; reflexivity).
    cbn [Csv.import_loop]. unfold Csv.import_row, Csv.parse_csv_row.
    by rewrite (Hstatus r 2 Hr).
  - intros clock db. vm_compute. reflexivity.
Qed.

(** ** CSV import *)

Section ImportProperties.

Variable str : Exception -> string.
Variable clock : Z -> Z.
Variable commit_fault : Z -> option Exception.

(** A row that leaves the [try] block without an exception carries a
    validated issue, whose title is not empty. *)
Lemma parse_csv_row_try_ok r n res :
  Csv.parse_csv_row_try r n = inr res ->
  exists c, res = (Some c, None) /\ ic_title c <> EmptyString.
Proof.
  unfold Csv.parse_csv_row_try.
  destruct (Csv.get r "status" "open") as [s|]; [|discriminate]; simpl.
  destruct (Csv.get r "priority" "medium") as [q|]; [|discriminate]; simpl.
  destruct (Csv.get r "title" EmptyString) as [t|]; [|discriminate]; simpl.
  destruct (Csv.get r "description" EmptyString) as [d|]; [|discriminate]; simpl.
  destruct (Csv.get r "assignee" EmptyString) as [a|]; [|discriminate]; simpl.
  destruct (Csv.get r "reporter" EmptyString) as [p|]; [|discriminate]; simpl.
  unfold IssueCreate_new, check_min.
  destruct (Text.strip t) as [|ch t'] eqn:Ht; simpl; [discriminate|].
  destruct (_ ++ _); simpl; [|discriminate].
  intros [= <-]. eexists; split; [reflexivity|]. simpl. discriminate.
Qed.

(** The message of the explicit title check is never produced. *)
Lemma title_required_unreachable r n :
  (Csv.parse_csv_row str r n).2 <> Some (mkRowError n Csv.title_required).
Proof.
  unfold Csv.parse_csv_row.
  destruct (Csv.parse_csv_row_try r n) as [e|res] eqn:Htry; simpl.
  - discriminate.
  - apply parse_csv_row_try_ok in Htry as (c & -> & _). discriminate.
Qed.

(** The entry that [parse_csv_row] reports carries the number of its row. *)
Lemma parse_csv_row_error_row r n e :
  (Csv.parse_csv_row str r n).2 = Some e -> row e = n.
Proof.
  unfold Csv.parse_csv_row.
  destruct (Csv.parse_csv_row_try r n) as [x|res] eqn:Htry; simpl.
  - by intros [= <-].
  - apply parse_csv_row_try_ok in Htry as (c & -> & _). discriminate.
Qed.

(** A row on its own either succeeds or fails, and a failure leaves one
    entry with the number of the row. *)
Lemma isolated_outcome n r :
  let o := isolated str clock commit_fault n r in
  Csv.l_total_rows o = 1
  /\ ((Csv.l_successful o = 1 /\ Csv.l_failed o = 0 /\ Csv.l_errors o = [])
      \/ (Csv.l_successful o = 0 /\ Csv.l_failed o = 1
          /\ exists msg, Csv.l_errors o = [mkRowError n msg])).
Proof.
  unfold isolated, Csv.import_row.
  destruct (Csv.parse_csv_row str r n) as [[c|] [e|]] eqn:Hp; simpl.
  - split; [done|right]. repeat split; try done.
    assert (row e = n) as <- by (apply parse_csv_row_error_row with r; by rewrite Hp).
    destruct e; eauto.
  - unfold Csv.add_commit. destruct (commit_fault n); simpl; split; eauto 10.
  - split; [done|right]. repeat split; try done.
    assert (row e = n) as <- by (apply parse_csv_row_error_row with r; by rewrite Hp).
    destruct e; eauto.
  - split; eauto 10.
Qed.

(** Inside a batch a row adds to the counters and to the error list what it
    yields on its own, whatever the earlier rows did. *)
Lemma import_row_isolated n r st :
  let o := isolated str clock commit_fault n r in
  let st' := Csv.import_row str clock commit_fault n r st in
  Csv.l_total_rows st' = Csv.l_total_rows st + 1
  /\ Csv.l_successful st' = Csv.l_successful st + Csv.l_successful o
  /\ Csv.l_failed st' = Csv.l_failed st + Csv.l_failed o
  /\ Csv.l_errors st' = Csv.l_errors st ++ Csv.l_errors o.
Proof.
  unfold isolated, Csv.import_row.
  destruct (Csv.parse_csv_row str r n) as [[c|] [e|]]; simpl;
    try (repeat split; lia).
  unfold Csv.add_commit. destruct (commit_fault n); simpl; repeat split; try lia.
  by rewrite app_nil_r.
Qed.

Lemma import_loop_isolated reader : forall n st,
  let rows := isolated_rows str clock commit_fault n reader in
  let st' := Csv.import_loop str clock commit_fault n reader st in
  Csv.l_total_rows st' = Csv.l_total_rows st + Z.of_nat (length reader)
  /\ Csv.l_successful st'
     = Csv.l_successful st
       + Z.of_nat (length (filter (fun o => Csv.l_failed o = 0) rows))
  /\ Csv.l_failed st'
     = Csv.l_failed st + Z.of_nat (length (filter (fun o => Csv.l_failed o = 1) rows))
  /\ Csv.l_errors st' = Csv.l_errors st ++ (rows ≫= Csv.l_errors).
Proof.
  induction reader as [|r reader IH]; intros n st; simpl.
  - repeat split; try lia. by rewrite app_nil_r.
  - destruct (IH (n + 1) (Csv.import_row str clock commit_fault n r st))
      as (Ht & Hs & Hf & He).
    destruct (import_row_isolated n r st) as (Ht1 & Hs1 & Hf1 & He1).
    destruct (isolated_outcome n r) as (_ & [(Hs2 & Hf2 & He2) | (Hs2 & Hf2 & msg & He2)]).
    + rewrite !filter_cons. repeat case_decide; try lia.
      rewrite Ht, Hs, Hf, He, Ht1, Hs1, Hf1, He1, Hs2, Hf2, He2. simpl.
      repeat split; try lia. by rewrite app_nil_r.
    + rewrite !filter_cons. repeat case_decide; try lia.
      rewrite Ht, Hs, Hf, He, Ht1, Hs1, Hf1, He1, Hs2, Hf2, He2. simpl.
      repeat split; try lia. by rewrite <- app_assoc.
Qed.

Lemma isolated_rows_lookup reader : forall n k r,
  reader !! k = Some r ->
  isolated_rows str clock commit_fault n reader !! k
  = Some (isolated str clock commit_fault (n + Z.of_nat k) r).
Proof.
  induction reader as [|r0 reader IH]; intros n k r; [done|].
  destruct k as [|k]; simpl.
  - intros [= ->]. by rewrite Z.add_0_r.
  - intros H. rewrite (IH (n + 1) k r H). do 2 f_equal. lia.
Qed.

End ImportProperties.

(** C2. Evaluation of the import on five data rows whose third row has a
    title of blanks only. The counters are 5, 4 and 1 and the single entry is
    for row 4, but its message is the one of the [except] branch of
    [parse_csv_row], built from the validation failure of the [IssueCreate]
    constructor (title shorter than 1 character); the message of the explicit
    title check is produced for no row at all. *)
Theorem empty_title_row_reports_parsing_error
    (str : Exception -> string) (clock : Z -> Z) :
  let out := (Csv.import_issues_from_csv str clock Sample.no_fault
                Sample.five_rows Sample.empty_db).1 in
  total_rows out = 5 /\ successful out = 4 /\ failed out = 1
  /\ errors out
     = [mkRowError 4
          ("Parsing error: "
           +:+ str (ValidationError
                      [mkFailure "IssueCreate" "title" (min_length 1) EmptyString]))]
  /\ errors out <> [mkRowError 4 Csv.title_required]
  /\ (forall commit_fault r n,
        (Csv.parse_csv_row str r n).2 <> Some (mkRowError n Csv.title_required)
        /\ Forall (fun e => error e <> Csv.title_required)
             (Csv.l_errors (isolated str clock commit_fault n r))).
Proof.
  assert (errors (Csv.import_issues_from_csv str clock Sample.no_fault
                    Sample.five_rows Sample.empty_db).1
          = [mkRowError 4
               ("Parsing error: "
                +:+ str (ValidationError
                           [mkFailure "IssueCreate" "title" (min_length 1) EmptyString]))])
    as Herr by (vm_compute; reflexivity).
  cbv zeta. rewrite Herr.
  split; [vm_compute; reflexivity|].
  split; [vm_compute; reflexivity|].
  split; [vm_compute; reflexivity|].
  split; [reflexivity|].
  split; [discriminate|].
  intros commit_fault r n. split; [apply title_required_unreachable|].
  unfold isolated, Csv.import_row.
  pose proof (title_required_unreachable str r n) as Hun.
  destruct (Csv.parse_csv_row str r n) as [[c|] [e|]] eqn:Hp; simpl in *.
  - repeat constructor. intros He. apply Hun. f_equal.
    assert (row e = n) as <- by (apply parse_csv_row_error_row with str r; by rewrite Hp).
    destruct e; simpl in *; by subst.
  - unfold Csv.add_commit. destruct (commit_fault n); simpl; repeat constructor.
    discriminate.
  - repeat constructor. intros He. apply Hun. f_equal.
    assert (row e = n) as <- by (apply parse_csv_row_error_row with str r; by rewrite Hp).
    destruct e; simpl in *; by subst.
  - repeat constructor. discriminate.
Qed.

(** C4. For every list of data rows, every clock, every pattern of storage
    faults and every table: the total is the number of rows and equals
    successful plus failed; each row, taken on its own under its row number,
    either succeeds or fails with exactly one entry that carries its row
    number; and the counters and the error list of the batch are the sums and
    the concatenation, in row order, of what the rows yield on their own. *)
Theorem import_counts_and_isolation
    (str : Exception -> string) (clock : Z -> Z)
    (commit_fault : Z -> option Exception)
    (reader : list (gmap string (option string))) (db : Db) :
  let out := (Csv.import_issues_from_csv str clock commit_fault reader db).1 in
  let rows := isolated_rows str clock commit_fault 2 reader in
  total_rows out = successful out + failed out
  /\ total_rows out = Z.of_nat (length reader)
  /\ successful out = Z.of_nat (length (filter (fun o => Csv.l_failed o = 0) rows))
  /\ failed out = Z.of_nat (length (filter (fun o => Csv.l_failed o = 1) rows))
  /\ failed out = Z.of_nat (length (errors out))
  /\ errors out = rows ≫= Csv.l_errors
  /\ (forall k r, reader !! k = Some r ->
        let o := isolated str clock commit_fault (2 + Z.of_nat k) r in
        rows !! k = Some o
        /\ ((Csv.l_successful o = 1 /\ Csv.l_failed o = 0 /\ Csv.l_errors o = [])
            \/ (Csv.l_successful o = 0 /\ Csv.l_failed o = 1
                /\ exists msg, Csv.l_errors o = [mkRowError (2 + Z.of_nat k) msg]
                               /\ mkRowError (2 + Z.of_nat k) msg ∈ errors out))).
Proof.
  intros out rows.
  destruct (import_loop_isolated str clock commit_fault reader 2
              (Csv.mkLoop 0 0 0 [] db)) as (Ht & Hs & Hf & He).
  simpl in Ht, Hs, Hf, He. fold rows in Hs, Hf, He.
  assert (Hout_t : total_rows out = Z.of_nat (length reader)) by (subst out; simpl; lia).
  assert (Hout_s : successful out
                   = Z.of_nat (length (filter (fun o => Csv.l_failed o = 0) rows)))
    by (subst out; simpl; lia).
  assert (Hout_f : failed out
                   = Z.of_nat (length (filter (fun o => Csv.l_failed o = 1) rows)))
    by (subst out; simpl; lia).
  assert (Hout_e : errors out = rows ≫= Csv.l_errors) by (subst out; simpl; done).
  assert (Hshape : forall n rd,
            let rs := isolated_rows str clock commit_fault n rd in
            length rd = (length (filter (fun o => Csv.l_failed o = 0%Z) rs)
                         + length (filter (fun o => Csv.l_failed o = 1%Z) rs))%nat
            /\ length (rs ≫= Csv.l_errors)
               = length (filter (fun o => Csv.l_failed o = 1) rs)).
  { intros n rd. revert n. induction rd as [|r rd IH]; intros n; [done|].
    simpl. destruct (IH (n + 1)) as [IH1 IH2].
    rewrite !filter_cons, length_app.
    destruct (isolated_outcome str clock commit_fault n r)
      as (_ & [(_ & Hf2 & He2) | (_ & Hf2 & msg & He2)]);
      rewrite He2; repeat case_decide; simpl; try lia;
      (split; [lia | first [exact IH2 | f_equal; exact IH2]]). }
  destruct (Hshape 2 reader) as [Hsum Hlen]. fold rows in Hsum, Hlen.
  repeat split; try assumption.
  - rewrite Hout_t, Hout_s, Hout_f. lia.
  - rewrite Hout_e, Hout_f. by rewrite Hlen.
  - by apply isolated_rows_lookup.
  - destruct (isolated_outcome str clock commit_fault (2 + Z.of_nat k) r)
      as (_ & [? | (Hs2 & Hf2 & msg & He2)]); [by left|right].
    repeat split; try assumption. exists msg. split; [assumption|].
    rewrite Hout_e. apply list_elem_of_bind.
    exists (isolated str clock commit_fault (2 + Z.of_nat k) r). split.
    + rewrite He2. apply list_elem_of_here.
    + apply list_elem_of_lookup. exists k. by apply isolated_rows_lookup.
Qed.

(** ** Single update and optimistic locking *)

Lemma get_issue_first issue_id db db_issue :
  get_issue issue_id db = inr db_issue <->
  exists k, Sql.first_by_id issue_id db = Some (k, db_issue).
Proof.
  unfold get_issue. destruct (Sql.first_by_id issue_id db) as [[k i]|]; split.
  - intros [= ->]. eauto.
  - intros [k' [= _ ->]]. reflexivity.
  - discriminate.
  - intros [? [=]].
Qed.

(** C1. When the stored issue that [get_issue] returns has a version that
    differs from the version the request supplies, [update_issue] raises
    the 409 exception whose detail names the expected and the current
    version, and the table it leaves is the table it was given: no field,
    timestamp or version of any row changes. *)
Theorem stale_version_conflict
    (now issue_id : Z) (issue_update : IssueUpdate) (db : Db)
    (db_issue : Issue) (expected : Z) :
  get_issue issue_id db = inr db_issue ->
  iu_version issue_update = Some expected ->
  expected <> version db_issue ->
  update_issue now issue_id issue_update db
  = (inl (HTTPException 409
            ("Version conflict: expected version " +:+ pretty expected
             +:+ ", but current version is " +:+ pretty (version db_issue))),
     db)
  /\ get_issue issue_id (update_issue now issue_id issue_update db).2 = inr db_issue.
Proof.
  intros Hget Hv Hne.
  pose proof Hget as Hget'.
  apply get_issue_first in Hget as [k Hk].
  unfold update_issue. rewrite Hk, Hv.
  destruct (decide (version db_issue ≠ expected)) as [_|Heq].
  - split; [reflexivity|exact Hget'].
  - exfalso. apply Hne. symmetry. by apply dec_stable.
Qed.

Lemma stale_version_conflict_witness :
  update_issue 200 7 Sample.stale_update Sample.db_v3
  = (inl (HTTPException 409
            "Version conflict: expected version 2, but current version is 3"),
     Sample.db_v3)
  /\ get_issue 7 (update_issue 200 7 Sample.stale_update Sample.db_v3).2
     = inr Sample.issue_v3.
Proof.
  apply (stale_version_conflict 200 7 Sample.stale_update Sample.db_v3 Sample.issue_v3 2).
  - reflexivity.
  - reflexivity.
  - vm_compute. discriminate.
Defined.

(** ** Versions *)

Lemma update_issue_ok now issue_id u db i' db' :
  update_issue now issue_id u db = (inr i', db') ->
  exists k i, Sql.first_by_id issue_id db = Some (k, i)
              /\ i' = apply_update now u i
              /\ issues db' = <[k := i']> (issues db)
              /\ next_id db' = next_id db.
Proof.
  unfold update_issue, commit_update.
  destruct (Sql.first_by_id issue_id db) as [[k i]|]; [|discriminate].
  destruct (iu_version u) as [v|].
  - destruct (decide _); [discriminate|].
    destruct (null_columns u); [|discriminate].
    intros [= <- <-]. eauto 10.
  - destruct (null_columns u); [|discriminate].
    intros [= <- <-]. eauto 10.
Qed.

Lemma bulk_update_issues_ok now bu db res db' :
  bulk_update_issues now bu db = (inr res, db') ->
  Sql.all_by_ids (bu_issue_ids bu) db <> []
  /\ issues db'
     = (fun i => if decide (id i ∈ bu_issue_ids bu) then bulk_assign now bu i else i)
         <$> issues db
  /\ next_id db' = next_id db
  /\ updated_ids res = id <$> Sql.all_by_ids (bu_issue_ids bu) db.
Proof.
  unfold bulk_update_issues.
  destruct (Sql.all_by_ids (bu_issue_ids bu) db) as [|i0 l] eqn:Hq; [discriminate|].
  intros [= <- <-]. simpl. done.
Qed.

Lemma bulk_update_issues_err now bu db e db' :
  bulk_update_issues now bu db = (inl e, db') ->
  Sql.all_by_ids (bu_issue_ids bu) db = [] /\ e = not_found_bulk /\ db' = db.
Proof.
  unfold bulk_update_issues.
  destruct (Sql.all_by_ids (bu_issue_ids bu) db) as [|i0 l] eqn:Hq; [|discriminate].
  by intros [= <- <-].
Qed.

(** The rows that an import appends are new rows: version 1, keys taken from
    the sequence. *)
Lemma import_loop_db str clock commit_fault reader : forall n st,
  let st' := Csv.import_loop str clock commit_fault n reader st in
  next_id (Csv.l_db st) <= next_id (Csv.l_db st')
  /\ exists added,
       issues (Csv.l_db st') = issues (Csv.l_db st) ++ added
       /\ Forall (fun i => version i = 1 /\ next_id (Csv.l_db st) <= id i) added.
Proof.
  induction reader as [|r reader IH]; intros n st; simpl.
  - split; [lia|]. exists []. by rewrite app_nil_r.
  - destruct (IH (n + 1) (Csv.import_row str clock commit_fault n r st))
      as (Hle & added & Happ & Hall).
    assert (Hrow :
      Csv.l_db (Csv.import_row str clock commit_fault n r st) = Csv.l_db st
      \/ exists c, Csv.l_db (Csv.import_row str clock commit_fault n r st)
                   = db_add (clock n) c (Csv.l_db st)).
    { unfold Csv.import_row.
      destruct (Csv.parse_csv_row str r n) as [[c|] [e|]]; simpl; auto.
      unfold Csv.add_commit. destruct (commit_fault n); simpl; eauto. }
    destruct Hrow as [Hrow | [c Hrow]]; rewrite Hrow in *.
    + split; [lia|]. by exists added.
    + simpl in *. split; [lia|].
      exists (new_issue (next_id (Csv.l_db st)) (clock n) c :: added). split.
      * by rewrite Happ, <- app_assoc.
      * constructor; [simpl; split; [done|lia]|].
        eapply Forall_impl; [exact Hall|]. simpl. intros i [? ?]. split; [done|lia].
Qed.

(** After any request, a row of the table is a row of the table before,
    with its key and creation time and a version that is the same or one
    higher, or it is a new row. *)
Lemma handle_rows req db i' :
  i' ∈ issues (handle req db) ->
  (exists i, i ∈ issues db /\ id i' = id i /\ created_at i' = created_at i
             /\ (version i' = version i \/ version i' = version i + 1))
  \/ (version i' = 1 /\ next_id db <= id i').
Proof.
  intros Hin.
  assert (Hkeep : i' ∈ issues db ->
    exists i, i ∈ issues db /\ id i' = id i /\ created_at i' = created_at i
              /\ (version i' = version i \/ version i' = version i + 1))
    by (intros ?; exists i'; auto).
  destruct req as [now c|now issue_id u|issue_id|now bu|bd|str clock fault reader];
    simpl in Hin.
  - apply elem_of_app in Hin as [Hin|Hin]; [left; auto|right].
    apply list_elem_of_singleton in Hin as ->. simpl. split; [done|lia].
  - left. destruct (update_issue now issue_id u db) as [[e|i1] db'] eqn:Hup.
    + assert (db' = db) as ->; [|auto].
      revert Hup. unfold update_issue, commit_update.
      destruct (Sql.first_by_id issue_id db) as [[k i]|]; [|by intros [= _ <-]].
      destruct (iu_version u) as [v|].
      * destruct (decide _); [by intros [= _ <-]|].
         destruct (null_columns u); [discriminate|by intros [= _ <-]].
      * destruct (null_columns u); [discriminate|by intros [= _ <-]].
    + apply update_issue_ok in Hup as (k & i & Hk & -> & Hdb & _).
      simpl in Hin. rewrite Hdb in Hin.
      apply list_find_Some in Hk as (Hk & _ & _).
      apply list_elem_of_lookup in Hin as [j Hj].
      destruct (decide (k = j)) as [->|Hne].
      * rewrite list_lookup_insert_eq in Hj by (by eapply lookup_lt_Some).
         injection Hj as <-. exists i. split.
         -- by eapply list_elem_of_lookup_2.
         -- simpl. auto.
      * rewrite list_lookup_insert_ne in Hj by done.
         apply Hkeep. by eapply list_elem_of_lookup_2.
  - left. apply Hkeep. revert Hin. unfold delete_issue.
    destruct (Sql.first_by_id issue_id db) as [[k i]|]; simpl; [|done].
    apply list_elem_of_delete_inv.
  - left. destruct (bulk_update_issues now bu db) as [[e|res] db'] eqn:Hup.
    + apply bulk_update_issues_err in Hup as (_ & _ & ->). auto.
    + apply bulk_update_issues_ok in Hup as (_ & Hdb & _ & _).
      simpl in Hin. rewrite Hdb in Hin.
      apply list_elem_of_fmap in Hin as (i & -> & Hi).
      exists i. split; [done|]. destruct (decide _); simpl; auto.
  - left. apply Hkeep. revert Hin. unfold bulk_delete_issues.
    destruct (Sql.all_by_ids (bd_issue_ids bd) db); simpl; [done|].
    rewrite list_elem_of_filter. tauto.
  - destruct (import_loop_db str clock fault reader 2 (Csv.mkLoop 0 0 0 [] db))
      as (_ & added & Happ & Hall).
    simpl in Happ, Hall. rewrite Happ in Hin.
    apply elem_of_app in Hin as [Hin|Hin]; [left; auto|right].
    rewrite Forall_forall in Hall. by apply Hall.
Qed.

Lemma get_issue_elem x db i : get_issue x db = inr i -> i ∈ issues db /\ id i = x.
Proof.
  intros H. apply get_issue_first in H as [k H].
  apply list_find_Some in H as (Hk & Hid & _). split; [|done].
  by eapply list_elem_of_lookup_2.
Qed.

Lemma keys_fresh_inj db i j :
  NoDup (id <$> issues db) -> i ∈ issues db -> j ∈ issues db -> id i = id j -> i = j.
Proof.
  intros Hnd Hi Hj Hid.
  apply list_elem_of_lookup in Hi as [a Ha]. apply list_elem_of_lookup in Hj as [b Hb].
  assert (a = b) as ->.
  { eapply NoDup_lookup; [exact Hnd| |].
    - rewrite list_lookup_fmap, Ha. reflexivity.
    - rewrite list_lookup_fmap, Hb. simpl. by rewrite Hid. }
  congruence.
Qed.

(** Every request keeps the keys unique and below the sequence. *)
Lemma db_add_keys_fresh now c db : keys_fresh db -> keys_fresh (db_add now c db).
Proof.
  intros [Hnd Hlt]. split; simpl.
  - rewrite fmap_app. apply NoDup_app. split; [done|]. split.
    + intros x Hx. apply list_elem_of_fmap in Hx as (i & -> & Hi).
      specialize (Hlt i Hi). simpl. rewrite list_elem_of_singleton. lia.
    + apply NoDup_singleton.
  - intros i Hi. apply elem_of_app in Hi as [Hi|Hi].
    + specialize (Hlt i Hi). lia.
    + apply list_elem_of_singleton in Hi as ->. simpl. lia.
Qed.

Lemma import_loop_keys_fresh str clock commit_fault reader : forall n st,
  keys_fresh (Csv.l_db st) ->
  keys_fresh (Csv.l_db (Csv.import_loop str clock commit_fault n reader st)).
Proof.
  induction reader as [|r reader IH]; intros n st Hst; [done|]. simpl.
  apply IH. unfold Csv.import_row.
  destruct (Csv.parse_csv_row str r n) as [[c|] [e|]]; simpl; try done.
  unfold Csv.add_commit. destruct (commit_fault n); simpl; [done|].
  by apply db_add_keys_fresh.
Qed.

Lemma handle_keys_fresh req db : keys_fresh db -> keys_fresh (handle req db).
Proof.
  intros Hdb. pose proof Hdb as [Hnd Hlt].
  destruct req as [now c|now issue_id u|issue_id|now bu|bd|str clock fault reader];
    simpl.
  - by apply db_add_keys_fresh.
  - destruct (update_issue now issue_id u db) as [[e|i1] db'] eqn:Hup.
    + simpl. assert (db' = db) as ->; [|done].
      revert Hup. unfold update_issue, commit_update.
      destruct (Sql.first_by_id issue_id db) as [[k i]|]; [|by intros [= _ <-]].
      destruct (iu_version u) as [v|].
      * destruct (decide _); [by intros [= _ <-]|].
        destruct (null_columns u); [discriminate|by intros [= _ <-]].
      * destruct (null_columns u); [discriminate|by intros [= _ <-]].
    + apply update_issue_ok in Hup as (k & i & Hk & -> & Hup & Hnext). simpl.
      apply list_find_Some in Hk as (Hk & _ & _).
      assert (Hids : id <$> issues db' = id <$> issues db).
      { rewrite Hup, list_fmap_insert. apply list_insert_id.
        by rewrite list_lookup_fmap, Hk. }
      split; [by rewrite Hids|].
      intros j Hj. rewrite Hnext.
      assert (Hj' : id j ∈ id <$> issues db)
        by (rewrite <- Hids; by apply list_elem_of_fmap_2).
      apply list_elem_of_fmap in Hj' as (j0 & -> & Hj0). by apply Hlt.
  - unfold delete_issue.
    destruct (Sql.first_by_id issue_id db) as [[k i]|]; simpl; [|done].
    split; simpl.
    + rewrite list_fmap_delete. eapply sublist_NoDup; [exact Hnd|apply sublist_delete].
    + intros j Hj. apply Hlt. by eapply list_elem_of_delete_inv.
  - destruct (bulk_update_issues now bu db) as [[e|res] db'] eqn:Hup; simpl.
    + by apply bulk_update_issues_err in Hup as (_ & _ & ->).
    + apply bulk_update_issues_ok in Hup as (_ & Hup & Hnext & _).
      assert (Hids : id <$> issues db' = id <$> issues db).
      { rewrite Hup, <- list_fmap_compose. apply fmap_ext_elem.
        intros i _. simpl. by destruct (decide _). }
      split; [by rewrite Hids|].
      intros j Hj. rewrite Hnext.
      assert (Hj' : id j ∈ id <$> issues db)
        by (rewrite <- Hids; by apply list_elem_of_fmap_2).
      apply list_elem_of_fmap in Hj' as (j0 & -> & Hj0). by apply Hlt.
  - unfold bulk_delete_issues.
    destruct (Sql.all_by_ids (bd_issue_ids bd) db); simpl; [done|].
    split; simpl.
    + eapply sublist_NoDup; [exact Hnd|]. apply fmap_sublist, sublist_filter.
    + intros j Hj. apply list_elem_of_filter in Hj as [_ Hj]. by apply Hlt.
  - by apply import_loop_keys_fresh.
Qed.

(** The tables that a run of requests reaches from the empty table. *)
Lemma run_keys_fresh (reqs : list Request) :
  keys_fresh (foldl (fun db r => handle r db) Sample.empty_db reqs).
Proof.
  assert (H0 : keys_fresh Sample.empty_db).
  { split; simpl; [apply NoDup_nil_2|]. intros i Hi. by apply not_elem_of_nil in Hi. }
  revert H0. generalize Sample.empty_db.
  induction reqs as [|r reqs IH]; intros db Hdb; [done|]. simpl.
  apply IH. by apply handle_keys_fresh.
Qed.

(** C3. The version of an issue is 1 when it is created; a successful single
    update stores a version one above the version it found; a successful
    bulk update raises the version of every row whose key is requested by
    one and leaves the others; after any request that changes the table,
    every row is either a row of the table before with the same key and
    creation time and a version that is the same or one higher, or a new row
    with version 1 and a key from the sequence; so, keys being unique and
    below the sequence, an issue that is still there after a request has the
    version it had or that version plus one. *)
Theorem version_starts_at_one_and_steps_by_one :
  (forall now c db,
     version (create_issue now c db).1 = 1
     /\ issues (create_issue now c db).2 = issues db ++ [(create_issue now c db).1])
  /\ (forall now issue_id u db i' db',
        update_issue now issue_id u db = (inr i', db') ->
        exists k i, Sql.first_by_id issue_id db = Some (k, i)
                    /\ version i' = version i + 1
                    /\ issues db' = <[k := i']> (issues db))
  /\ (forall now bu db res db',
        bulk_update_issues now bu db = (inr res, db') ->
        length (issues db') = length (issues db)
        /\ forall k i, issues db !! k = Some i ->
             exists i', issues db' !! k = Some i' /\ id i' = id i
                        /\ version i'
                           = if decide (id i ∈ bu_issue_ids bu)
                             then version i + 1 else version i)
  /\ (forall req db i',
        i' ∈ issues (handle req db) ->
        (exists i, i ∈ issues db /\ id i' = id i /\ created_at i' = created_at i
                   /\ (version i' = version i \/ version i' = version i + 1))
        \/ (version i' = 1 /\ next_id db <= id i'))
  /\ (forall req db x i i',
        keys_fresh db ->
        get_issue x db = inr i -> get_issue x (handle req db) = inr i' ->
        created_at i' = created_at i
        /\ (version i' = version i \/ version i' = version i + 1)).
Proof.
  split; [|split; [|split; [|split]]].
  - intros now c db. split; reflexivity.
  - intros now issue_id u db i' db' H.
    apply update_issue_ok in H as (k & i & Hk & -> & Hdb & _).
    exists k, i. repeat split; assumption.
  - intros now bu db res db' H.
    apply bulk_update_issues_ok in H as (_ & Hdb & _ & _). rewrite Hdb.
    split; [apply length_fmap|].
    intros k i Hk. rewrite list_lookup_fmap, Hk. simpl.
    eexists; split; [reflexivity|]. by destruct (decide _).
  - intros req db i'. apply handle_rows.
  - intros req db x i i' [Hnd Hlt] Hi Hi'.
    apply get_issue_elem in Hi as [Hi <-]. apply get_issue_elem in Hi' as [Hi' Hid].
    apply handle_rows in Hi' as [(i0 & Hi0 & Hid0 & Hc & Hv) | [_ Hnew]].
    + assert (i0 = i) as -> by (apply (keys_fresh_inj db); congruence). done.
    + specialize (Hlt i Hi). lia.
Qed.

(** ** Bulk operations *)


Lemma all_by_ids_extra keys extra db :
  (forall i, i ∈ issues db -> id i ∉ extra) ->
  Sql.all_by_ids (keys ++ extra) db = Sql.all_by_ids keys db.
Proof.
  intros H. unfold Sql.all_by_ids. apply filter_ext_elem.
  intros i Hi. rewrite elem_of_app. specialize (H i Hi). tauto.
Qed.

(** C5. [bulk_update_issues] and [bulk_delete_issues] work on the rows whose
    key occurs in the request. Both raise the 404 exception and leave the
    table as it is exactly when no row has a requested key; otherwise they
    report the number and the keys of exactly those rows and keep every
    other row as it is. The update gives each of those rows the requested
    status, priority and assignee (a field that the request leaves out keeps
    its value), a version one higher, whatever the version was, and the
    clock reading as update time; the delete removes each of them. Requested
    keys that no row carries do not change the outcome in any way. *)
Theorem bulk_operations_match_existing_ids :
  (forall now bu db,
     let matched := filter (fun i => id i ∈ bu_issue_ids bu) (issues db) in
     (matched = [] -> bulk_update_issues now bu db = (inl not_found_bulk, db))
     /\ (matched <> [] ->
         exists res db',
           bulk_update_issues now bu db = (inr res, db')
           /\ updated_count res = Z.of_nat (length matched)
           /\ updated_ids res = id <$> matched
           /\ (forall x, x ∈ updated_ids res <->
                         x ∈ bu_issue_ids bu /\ exists i, i ∈ issues db /\ id i = x)
           /\ length (issues db') = length (issues db)
           /\ next_id db' = next_id db
           /\ forall k i, issues db !! k = Some i ->
                exists i',
                  issues db' !! k = Some i'
                  /\ (id i ∉ bu_issue_ids bu -> i' = i)
                  /\ (id i ∈ bu_issue_ids bu ->
                      id i' = id i /\ title i' = title i
                      /\ description i' = description i /\ reporter i' = reporter i
                      /\ created_at i' = created_at i
                      /\ updated_at i' = now /\ version i' = version i + 1
                      /\ (forall s, bu_status bu = Some s -> status i' = s)
                      /\ (bu_status bu = None -> status i' = status i)
                      /\ (forall q, bu_priority bu = Some q -> priority i' = q)
                      /\ (bu_priority bu = None -> priority i' = priority i)
                      /\ (forall a, bu_assignee bu = Some a -> assignee i' = Some a)
                      /\ (bu_assignee bu = None -> assignee i' = assignee i)))
     /\ (forall extra,
           (forall i, i ∈ issues db -> id i ∉ extra) ->
           bulk_update_issues now
             (mkIssueBulkUpdate (bu_issue_ids bu ++ extra)
                (bu_status bu) (bu_priority bu) (bu_assignee bu)) db
           = bulk_update_issues now bu db))
  /\ (forall bd db,
        let matched := filter (fun i => id i ∈ bd_issue_ids bd) (issues db) in
        (matched = [] -> bulk_delete_issues bd db = (inl not_found_bulk, db))
        /\ (matched <> [] ->
            exists res db',
              bulk_delete_issues bd db = (inr res, db')
              /\ deleted_count res = Z.of_nat (length matched)
              /\ deleted_ids res = id <$> matched
              /\ (forall x, x ∈ deleted_ids res <->
                            x ∈ bd_issue_ids bd /\ exists i, i ∈ issues db /\ id i = x)
              /\ issues db' = filter (fun i => id i ∉ bd_issue_ids bd) (issues db)
              /\ next_id db' = next_id db
              /\ (forall i, i ∈ issues db' <-> i ∈ issues db /\ id i ∉ bd_issue_ids bd)
              /\ Z.of_nat (length (issues db')) + deleted_count res
                 = Z.of_nat (length (issues db)))
        /\ (forall extra,
              (forall i, i ∈ issues db -> id i ∉ extra) ->
              bulk_delete_issues (mkIssueBulkDelete (bd_issue_ids bd ++ extra)) db
              = bulk_delete_issues bd db)).
Proof.
  assert (Hids : forall (keys : list Z) (l : list Issue) (x : Z),
            x ∈ id <$> filter (fun i => id i ∈ keys) l <->
            x ∈ keys /\ exists i, i ∈ l /\ id i = x).
  { intros keys l x. rewrite list_elem_of_fmap. split.
    - intros (i & -> & Hi). apply list_elem_of_filter in Hi as [? ?]. eauto.
    - intros (Hx & i & Hi & <-). exists i. split; [done|].
      by apply list_elem_of_filter. }
  split.
  - intros now bu db matched. split; [|split].
    + intros Hm. unfold bulk_update_issues, Sql.all_by_ids. fold matched. by rewrite Hm.
    + intros Hm. unfold bulk_update_issues, Sql.all_by_ids. fold matched.
      destruct matched as [|i0 l] eqn:Hq; [done|].
      eexists _, _. split; [reflexivity|]. simpl.
      split; [rewrite count_loop; lia|].
      split; [done|]. split; [|split; [|split]].
      * intros x. rewrite <- (Hids (bu_issue_ids bu) (issues db) x).
        fold matched. by rewrite Hq.
      * apply length_fmap.
      * reflexivity.
      * intros k i Hk. rewrite list_lookup_fmap, Hk. simpl.
        eexists. split; [reflexivity|].
        destruct (decide (id i ∈ bu_issue_ids bu)) as [Hin|Hin]; [|done].
        split; [done|]. intros _. unfold bulk_assign. simpl.
        split; [done|]. split; [done|]. split; [done|]. split; [done|].
        split; [done|]. split; [done|]. split; [done|].
        split; [by intros s0 ->|]. split; [by intros ->|].
        split; [by intros q ->|]. split; [by intros ->|].
        split; [by intros a ->|by intros ->].
    + intros extra Hextra. unfold bulk_update_issues. simpl.
      rewrite (all_by_ids_extra _ _ _ Hextra).
      destruct (Sql.all_by_ids (bu_issue_ids bu) db) as [|i0 l0]; [done|].
      do 2 f_equal. apply fmap_ext_elem. intros i Hi.
      specialize (Hextra i Hi).
      destruct (decide (id i ∈ bu_issue_ids bu ++ extra)) as [Hin|Hin],
               (decide (id i ∈ bu_issue_ids bu)) as [Hin'|Hin']; try done.
      * apply elem_of_app in Hin as [?|?]; done.
      * exfalso. apply Hin. apply elem_of_app. by left.
  - intros bd db matched. split; [|split].
    + intros Hm. unfold bulk_delete_issues, Sql.all_by_ids. fold matched. by rewrite Hm.
    + intros Hm. unfold bulk_delete_issues, Sql.all_by_ids. fold matched.
      pose proof (filter_app_complement (fun i => id i ∈ bd_issue_ids bd) (issues db))
        as Hsplit.
      apply Permutation_length in Hsplit. rewrite length_app in Hsplit. fold matched in Hsplit.
      destruct matched as [|i0 l] eqn:Hq; [done|].
      eexists _, _. split; [reflexivity|]. cbn [deleted_count deleted_ids issues next_id].
      split; [done|]. split; [done|]. split; [|split; [|split; [|split]]].
      * intros x. rewrite <- (Hids (bd_issue_ids bd) (issues db) x).
        fold matched. by rewrite Hq.
      * done.
      * done.
      * intros i. rewrite list_elem_of_filter. tauto.
      * lia.
    + intros extra Hextra. unfold bulk_delete_issues. simpl.
      rewrite (all_by_ids_extra _ _ _ Hextra).
      destruct (Sql.all_by_ids (bd_issue_ids bd) db) as [|i0 l0]; [done|].
      do 2 f_equal. apply filter_ext_elem. intros i Hi.
      specialize (Hextra i Hi). rewrite elem_of_app. tauto.
Qed.

(** C10. A bulk update that leaves out a field leaves that field of every
    row as it is, for assignee, status and priority alike; no bulk update
    turns an assignee that is present into an absent one; a bulk update that
    leaves out all three changes nothing but the version and [updated_at] of
    the rows it matches; and rows whose key is not requested, and all rows
    when the request fails, stay as they are. *)
Theorem bulk_update_frame :
  forall now bu db,
    let db' := (bulk_update_issues now bu db).2 in
    length (issues db') = length (issues db)
    /\ (forall k i, issues db !! k = Some i ->
          exists i', issues db' !! k = Some i'
            /\ id i' = id i /\ title i' = title i /\ description i' = description i
            /\ reporter i' = reporter i /\ created_at i' = created_at i
            /\ (bu_assignee bu = None -> assignee i' = assignee i)
            /\ (bu_status bu = None -> status i' = status i)
            /\ (bu_priority bu = None -> priority i' = priority i)
            /\ (assignee i <> None -> assignee i' <> None)
            /\ (bu_assignee bu = None -> bu_status bu = None -> bu_priority bu = None ->
                i' = if decide (id i ∈ bu_issue_ids bu)
                     then mkIssue (id i) (title i) (description i) (status i)
                            (priority i) (assignee i) (reporter i) (created_at i)
                            now (version i + 1)
                     else i)
            /\ (id i ∉ bu_issue_ids bu -> i' = i))
    /\ (forall e, (bulk_update_issues now bu db).1 = inl e -> db' = db).
Proof.
  intros now bu db db'.
  destruct (bulk_update_issues now bu db) as [[e|res] db1] eqn:Hup; subst db'; simpl.
  - pose proof Hup as Hup'.
    apply bulk_update_issues_err in Hup as (Hq & _ & ->).
    split; [done|]. split; [|done].
    intros k i Hk. exists i. repeat split; try done.
    intros _ _ _. destruct (decide (id i ∈ bu_issue_ids bu)) as [Hin|]; [|done].
    exfalso.
    assert (Hi : i ∈ Sql.all_by_ids (bu_issue_ids bu) db).
    { apply list_elem_of_filter. split; [done|]. by eapply list_elem_of_lookup_2. }
    rewrite Hq in Hi. by apply not_elem_of_nil in Hi.
  - apply bulk_update_issues_ok in Hup as (_ & Hdb & _ & _). rewrite Hdb.
    split; [apply length_fmap|]. split; [|discriminate].
    intros k i Hk. rewrite list_lookup_fmap, Hk. simpl.
    eexists; split; [reflexivity|].
    destruct (decide (id i ∈ bu_issue_ids bu)) as [Hin|Hin]; simpl.
    + repeat split; try done.
      * by intros ->.
      * by intros ->.
      * by intros ->.
      * destruct (bu_assignee bu); done.
      * intros Ha Hs Hp. unfold bulk_assign. by rewrite Ha, Hs, Hp.
    + repeat split; done.
Qed.

(** ** Analytics *)

Lemma count_by_status db :
  Sql.count (fun i => status i = OPEN) db
  + Sql.count (fun i => status i = IN_PROGRESS) db
  + Sql.count (fun i => status i = RESOLVED) db
  + Sql.count (fun i => status i = CLOSED) db
  = Sql.count (fun _ => True) db.
Proof.
  unfold Sql.count. induction (issues db) as [|i l IH]; [done|].
  rewrite !filter_cons. destruct (status i); repeat case_decide; try done;
    simpl length; lia.
Qed.

Lemma count_by_priority db :
  Sql.count (fun i => priority i = LOW) db
  + Sql.count (fun i => priority i = MEDIUM) db
  + Sql.count (fun i => priority i = HIGH) db
  + Sql.count (fun i => priority i = CRITICAL) db
  = Sql.count (fun _ => True) db.
Proof.
  unfold Sql.count. induction (issues db) as [|i l IH]; [done|].
  rewrite !filter_cons. destruct (priority i); repeat case_decide; try done;
    simpl length; lia.
Qed.

Lemma sum_values_insert (d : gmap string Z) k v :
  d !! k = None -> sum_values (<[k := v]> d) = v + sum_values d.
Proof.
  intros Hk. unfold sum_values. rewrite map_fold_insert_L; [done| |done].
  intros. lia.
Qed.

Lemma sum_values_four (k1 k2 k3 k4 : string) (v1 v2 v3 v4 : Z) :
  NoDup [k1; k2; k3; k4] ->
  sum_values (<[k4 := v4]> (<[k3 := v3]> (<[k2 := v2]> (<[k1 := v1]> ∅))))
  = v1 + v2 + v3 + v4.
Proof.
  intros Hnd.
  apply NoDup_cons in Hnd as [N1 Hnd]. apply NoDup_cons in Hnd as [N2 Hnd].
  apply NoDup_cons in Hnd as [N3 _].
  assert (k1 <> k2 /\ k1 <> k3 /\ k1 <> k4 /\ k2 <> k3 /\ k2 <> k4 /\ k3 <> k4)
    as (?&?&?&?&?&?) by set_solver.
  assert (E0 : sum_values ∅ = 0) by apply map_fold_empty.
  rewrite !sum_values_insert.
  - rewrite E0. lia.
  - apply lookup_empty.
  - by rewrite lookup_insert_ne, lookup_empty.
  - by rewrite !lookup_insert_ne, lookup_empty.
  - by rewrite !lookup_insert_ne, lookup_empty.
Qed.

(** C9. For every table, [get_issue_stats] returns a counter for each of
    the four statuses and for each of the four priorities and for nothing
    else, each the number of rows with that value (zero when there is none);
    the status counters add up to [total_issues], and so do the priority
    counters; the assignee dictionary has the key [unassigned] bound to the
    number of rows without assignee; and the total and the eight counters of
    [get_issue_summary] are the entries of [get_issue_stats]. *)
Theorem stats_and_summary_agree :
  forall db,
    let s := get_issue_stats db in
    let m := get_issue_summary db in
    (forall e, st_by_status s !! status_value e
               = Some (Sql.count (fun i => status i = e) db))
    /\ dom (st_by_status s)
       = ({[ "open"; "in_progress"; "resolved"; "closed" ]} : gset string)
    /\ (forall e, st_by_priority s !! priority_value e
                  = Some (Sql.count (fun i => priority i = e) db))
    /\ dom (st_by_priority s)
       = ({[ "low"; "medium"; "high"; "critical" ]} : gset string)
    /\ sum_values (st_by_status s) = st_total_issues s
    /\ sum_values (st_by_priority s) = st_total_issues s
    /\ st_total_issues s = Z.of_nat (length (issues db))
    /\ st_by_assignee s !! "unassigned"
       = Some (Sql.count (fun i => assignee i = None) db)
    /\ su_total_issues m = st_total_issues s
    /\ st_by_status s !! "open" = Some (su_open_issues m)
    /\ st_by_status s !! "in_progress" = Some (su_in_progress_issues m)
    /\ st_by_status s !! "resolved" = Some (su_resolved_issues m)
    /\ st_by_status s !! "closed" = Some (su_closed_issues m)
    /\ st_by_priority s !! "critical" = Some (su_critical_priority m)
    /\ st_by_priority s !! "high" = Some (su_high_priority m)
    /\ st_by_priority s !! "medium" = Some (su_medium_priority m)
    /\ st_by_priority s !! "low" = Some (su_low_priority m)
    /\ (issues db = [] ->
        (forall e, st_by_status s !! status_value e = Some 0)
        /\ (forall e, st_by_priority s !! priority_value e = Some 0)).
Proof.
  intros db s m.
  assert (Hs : forall e, st_by_status s !! status_value e
                         = Some (Sql.count (fun i => status i = e) db)).
  { intros e. subst s. unfold get_issue_stats. simpl.
    destruct e; simpl; by simplify_map_eq. }
  assert (Hp : forall e, st_by_priority s !! priority_value e
                         = Some (Sql.count (fun i => priority i = e) db)).
  { intros e. subst s. unfold get_issue_stats. simpl.
    destruct e; simpl; by simplify_map_eq. }
  split; [exact Hs|].
  split; [subst s; unfold get_issue_stats; simpl; rewrite !dom_insert_L, dom_empty_L;
          set_solver|].
  split; [exact Hp|].
  split; [subst s; unfold get_issue_stats; simpl; rewrite !dom_insert_L, dom_empty_L;
          set_solver|].
  split.
  { subst s. unfold get_issue_stats. simpl.
    rewrite sum_values_four; [apply count_by_status|].
    apply (bool_decide_unpack _). by vm_compute. }
  split.
  { subst s. unfold get_issue_stats. simpl.
    rewrite sum_values_four; [apply count_by_priority|].
    apply (bool_decide_unpack _). by vm_compute. }
  split.
  { subst s. unfold get_issue_stats, Sql.count. simpl. f_equal.
    induction (issues db) as [|i l IH]; [done|].
    rewrite filter_cons_True by done. simpl. by rewrite IH. }
  split; [subst s; unfold get_issue_stats; simpl; apply lookup_insert_eq|].
  split; [reflexivity|].
  split; [apply (Hs OPEN)|]. split; [apply (Hs IN_PROGRESS)|].
  split; [apply (Hs RESOLVED)|]. split; [apply (Hs CLOSED)|].
  split; [apply (Hp CRITICAL)|]. split; [apply (Hp HIGH)|].
  split; [apply (Hp MEDIUM)|]. split; [apply (Hp LOW)|].
  intros Hempty. split; intros e; [rewrite Hs|rewrite Hp];
    unfold Sql.count; by rewrite Hempty.
Qed.

(** ** Text patterns *)

Section Like.

Lemma append_cons c s t : String c s +:+ t = String c (s +:+ t).
Proof. reflexivity. Qed.

Lemma append_empty_l t : EmptyString +:+ t = t.
Proof. reflexivity. Qed.

Lemma lower_append s t : Text.lower (s +:+ t) = Text.lower s +:+ Text.lower t.
Proof. induction s as [|c s IH]; [done|]. rewrite append_cons. simpl. by rewrite IH. Qed.

Lemma lower_char_not_wildcard c :
  c <> "%"%char -> c <> "_"%char ->
  Text.lower_char c <> "%"%char /\ Text.lower_char c <> "_"%char.
Proof.
  destruct c as [[] [] [] [] [] [] [] []]; intros H1 H2; vm_compute;
    split; first [discriminate | done].
Qed.

Lemma wildcard_free_lower s : wildcard_free s -> wildcard_free (Text.lower s).
Proof.
  induction s as [|c s IH]; [done|]. simpl. intros (H1 & H2 & Hs).
  destruct (lower_char_not_wildcard c H1 H2). auto.
Qed.

Lemma like_percent p t :
  Sql.like (String "%" p) t
  = Sql.like p t
    || match t with
       | EmptyString => false
       | String _ t' => Sql.like (String "%" p) t'
       end.
Proof. destruct t; reflexivity. Qed.

Lemma like_char c p t :
  c <> "%"%char -> c <> "_"%char ->
  Sql.like (String c p) t
  = match t with
    | EmptyString => false
    | String d t' => Ascii.eqb c d && Sql.like p t'
    end.
Proof.
  intros H1 H2. simpl.
  destruct (Ascii.eqb c "%") eqn:E1; [by apply Ascii.eqb_eq in E1|].
  destruct (Ascii.eqb c "_") eqn:E2; [by apply Ascii.eqb_eq in E2|].
  reflexivity.
Qed.

(** A pattern that ends in [%] after literal text selects the strings that
    start with that text. *)
Lemma like_prefix s : forall t,
  wildcard_free s ->
  Sql.like (s +:+ "%") t = true <-> exists post, t = s +:+ post.
Proof.
  induction s as [|c s IH]; intros t Hs.
  - rewrite append_empty_l. split; [eauto|]. intros _.
    induction t as [|d t IHt]; [reflexivity|].
    rewrite like_percent. by rewrite IHt, orb_true_r.
  - destruct Hs as (H1 & H2 & Hs). rewrite append_cons, like_char by done.
    destruct t as [|d t].
    + split; [discriminate|]. intros [post Hp]. by rewrite append_cons in Hp.
    + rewrite andb_true_iff, Ascii.eqb_eq, (IH t Hs). split.
      * intros [-> [post ->]]. exists post. by rewrite append_cons.
      * intros [post Hp]. rewrite append_cons in Hp. injection Hp as -> ->. eauto.
Qed.

(** A pattern that starts with [%] selects the strings of which some suffix
    is selected by the rest of the pattern. *)
Lemma like_any p : forall t,
  Sql.like (String "%" p) t = true <->
  exists pre post, t = pre +:+ post /\ Sql.like p post = true.
Proof.
  induction t as [|d t IH]; rewrite like_percent.
  - rewrite orb_false_r. split.
    + intros H. by exists EmptyString, EmptyString.
    + intros (pre & post & Ht & H). destruct pre; [|discriminate].
      rewrite append_empty_l in Ht. by subst.
  - rewrite orb_true_iff, IH. split.
    + intros [H | (pre & post & -> & H)].
      * by exists EmptyString, (String d t).
      * exists (String d pre), post. by rewrite append_cons.
    + intros (pre & post & Ht & H). destruct pre as [|c pre].
      * rewrite append_empty_l in Ht. subst. by left.
      * rewrite append_cons in Ht. injection Ht as -> ->. right. eauto.
Qed.

(** [%text%] selects the strings that contain the literal text. *)
Lemma like_contains s t :
  wildcard_free s ->
  Sql.like ("%" +:+ s +:+ "%") t = true <-> contains s t.
Proof.
  intros Hs. rewrite append_cons, append_empty_l, like_any. unfold contains. split.
  - intros (pre & post & -> & H). apply like_prefix in H as [post' ->]; eauto.
  - intros (pre & post & ->). exists pre, (s +:+ post). split; [done|].
    apply like_prefix; eauto.
Qed.

Lemma ilike_contains s column :
  wildcard_free s ->
  Sql.ilike column ("%" +:+ s +:+ "%") = true <-> contains_ci s column.
Proof.
  intros Hs. unfold Sql.ilike, contains_ci.
  rewrite !lower_append. change (Text.lower "%") with "%".
  apply like_contains. by apply wildcard_free_lower.
Qed.

End Like.

(** ** Listing *)

Section Selected.

Variable p : ListParams.
Variable i : Issue.

Lemma status_value_truthy s : Text.truthy (status_value s) = true.
Proof. by destruct s. Qed.

Lemma priority_value_truthy q : Text.truthy (priority_value q) = true.
Proof. by destruct q. Qed.

Lemma truthy_true s : Text.truthy s = true <-> s <> EmptyString.
Proof. destruct s; simpl; split; congruence. Qed.

Lemma selected_status :
  (if truthy_opt (status_value <$> status_filter p)
   then bool_decide (Some (status i) = status_filter p) else true) = true
  <-> forall s, status_filter p = Some s -> status i = s.
Proof.
  destruct (status_filter p) as [s|]; simpl.
  - rewrite status_value_truthy, bool_decide_eq_true. split.
    + intros [= ->] s' [= ->]. done.
    + intros H. by rewrite (H s).
  - split; [discriminate|done].
Qed.

Lemma selected_priority :
  (if truthy_opt (priority_value <$> q_priority p)
   then bool_decide (Some (priority i) = q_priority p) else true) = true
  <-> forall q, q_priority p = Some q -> priority i = q.
Proof.
  destruct (q_priority p) as [q|]; simpl.
  - rewrite priority_value_truthy, bool_decide_eq_true. split.
    + intros [= ->] q' [= ->]. done.
    + intros H. by rewrite (H q).
  - split; [discriminate|done].
Qed.

Lemma selected_assignee :
  (if truthy_opt (q_assignee p)
   then bool_decide (assignee i = q_assignee p) else true) = true
  <-> forall a, q_assignee p = Some a -> a <> EmptyString -> assignee i = Some a.
Proof.
  destruct (q_assignee p) as [a|]; simpl.
  - destruct (Text.truthy a) eqn:Ha.
    + rewrite bool_decide_eq_true. split.
      * intros -> a' [= ->] _. done.
      * intros H. apply H; [done|]. by apply truthy_true.
    + split; [|done]. intros _ a' [= <-] Hne. apply truthy_true in Hne. congruence.
  - split; [discriminate|done].
Qed.

Lemma selected_search :
  (forall t, search p = Some t -> wildcard_free t) ->
  (if truthy_opt (search p)
   then let search_pattern := "%" +:+ default EmptyString (search p) +:+ "%" in
        Sql.ilike (title i) search_pattern
        || Sql.ilike_null (description i) search_pattern
   else true) = true
  <-> forall t, search p = Some t -> t <> EmptyString ->
        contains_ci t (title i)
        \/ exists d, description i = Some d /\ contains_ci t d.
Proof.
  intros Hfree. destruct (search p) as [t|]; simpl.
  - specialize (Hfree t eq_refl). destruct (Text.truthy t) eqn:Ht.
    + rewrite orb_true_iff, ilike_contains by done. split.
      * intros H t' [= <-] _. destruct H as [H|H]; [by left|right].
        destruct (description i) as [d|]; [|discriminate].
        exists d. split; [done|]. by apply ilike_contains.
      * intros H. destruct (H t eq_refl) as [H'|(d & Hd & H')].
        -- by apply truthy_true.
        -- by left.
        -- right. rewrite Hd. simpl. by apply ilike_contains.
    + split; [|done]. intros _ t' [= <-] Hne. apply truthy_true in Hne. congruence.
  - split; [discriminate|done].
Qed.

Lemma selected_Matches :
  (forall t, search p = Some t -> wildcard_free t) ->
  selected p i = true <-> Matches p i.
Proof.
  intros Hfree. unfold selected, Matches.
  rewrite !andb_true_iff, selected_status, selected_priority, selected_assignee,
    (selected_search Hfree).
  tauto.
Qed.

End Selected.

Lemma offset_limit_subseteq {A} (sk lm : Z) (l : list A) :
  Sql.offset_limit sk lm l ⊆ l.
Proof.
  unfold Sql.offset_limit. etrans; [apply subseteq_take|apply subseteq_drop].
Qed.

Lemma offset_limit_all {A} (sk lm : Z) (l : list A) :
  sk <= 0 -> Z.of_nat (length l) <= lm -> Sql.offset_limit sk lm l = l.
Proof.
  intros Hs Hl. unfold Sql.offset_limit.
  replace (Z.to_nat sk) with 0%nat by lia. rewrite drop_0.
  apply take_ge. lia.
Qed.

(** C7, as the code has it. For every table and every query whose search
    term, if any, contains neither [%] nor [_]: a row is selected exactly
    when it meets every filter that is given and is not the empty string,
    where a status, a priority and an assignee must be equal to the one
    asked for and a search term must occur, case ignored, in the title or in
    a description that is present; an assignee or a search term that is the
    empty string filters nothing; the answer is the page of the ordered
    selected rows, every returned row is a selected row of the table, and
    when the page covers the table every selected row is returned. *)
Theorem list_issues_selects_matching
    (order_by : list Issue -> list Issue) (p : ListParams) (db : Db) :
  (forall l, order_by l ≡ₚ l) ->
  (forall t, search p = Some t -> wildcard_free t) ->
  (forall i, selected p i = true <-> Matches p i)
  /\ (exists matching,
        matching ≡ₚ filter (fun i => selected p i = true) (issues db)
        /\ list_issues order_by p db = Sql.offset_limit (skip p) (limit p) matching)
  /\ (forall i, i ∈ list_issues order_by p db -> i ∈ issues db /\ Matches p i)
  /\ (skip p <= 0 -> Z.of_nat (length (issues db)) <= limit p ->
      forall i, i ∈ issues db -> Matches p i -> i ∈ list_issues order_by p db)
  /\ (q_assignee p = Some EmptyString ->
      forall i, selected p i
                = selected (mkListParams (status_filter p) (q_priority p) None
                              (search p) (skip p) (limit p)) i).
Proof.
  intros Hperm Hfree.
  assert (Hsel : forall i, selected p i = true <-> Matches p i)
    by (intros i; by apply selected_Matches).
  split; [exact Hsel|]. split; [|split; [|split]].
  - exists (order_by (filter (fun i => selected p i = true) (issues db))).
    split; [apply Hperm|reflexivity].
  - intros i Hi. unfold list_issues in Hi.
    apply offset_limit_subseteq in Hi. rewrite Hperm in Hi.
    apply list_elem_of_filter in Hi as [Hs Hi]. split; [done|]. by apply Hsel.
  - intros Hskip Hlimit i Hi Hm. unfold list_issues.
    rewrite offset_limit_all; [| done |].
    + rewrite Hperm. apply list_elem_of_filter. split; [by apply Hsel|done].
    + rewrite Hperm.
      pose proof (length_filter (fun i => selected p i = true) (issues db)). lia.
  - intros Ha i. unfold selected. simpl. by rewrite Ha.
Qed.

Lemma list_issues_selects_matching_witness :
  (forall i, selected Sample.alice_bug i = true <-> Matches Sample.alice_bug i)
  /\ (exists matching,
        matching ≡ₚ filter (fun i => selected Sample.alice_bug i = true)
                      (issues Sample.same_time_db)
        /\ list_issues Engine.scan_order Sample.alice_bug Sample.same_time_db
           = Sql.offset_limit (skip Sample.alice_bug) (limit Sample.alice_bug) matching)
  /\ (forall i, i ∈ list_issues Engine.scan_order Sample.alice_bug Sample.same_time_db ->
                i ∈ issues Sample.same_time_db /\ Matches Sample.alice_bug i)
  /\ (skip Sample.alice_bug <= 0 ->
      Z.of_nat (length (issues Sample.same_time_db)) <= limit Sample.alice_bug ->
      forall i, i ∈ issues Sample.same_time_db -> Matches Sample.alice_bug i ->
                i ∈ list_issues Engine.scan_order Sample.alice_bug Sample.same_time_db)
  /\ (q_assignee Sample.alice_bug = Some EmptyString ->
      forall i, selected Sample.alice_bug i
                = selected (mkListParams (status_filter Sample.alice_bug)
                              (q_priority Sample.alice_bug) None
                              (search Sample.alice_bug) (skip Sample.alice_bug)
                              (limit Sample.alice_bug)) i).
Proof.
  apply (list_issues_selects_matching Engine.scan_order Sample.alice_bug
           Sample.same_time_db).
  - intros l. apply merge_sort_Permutation.
  - intros t [= <-]. simpl. repeat split; discriminate.
Defined.

Example list_issues_alice_bug :
  id <$> list_issues Engine.scan_order Sample.alice_bug Sample.same_time_db = [1; 3].
Proof. vm_compute. reflexivity. Qed.

(** C7, as stated: an assignee filter with the empty string is skipped by
    the guard [if assignee:], so the answer holds a row whose assignee is
    not the string asked for. *)
Lemma assignee_filter_empty_string_counterexample :
  list_issues Engine.scan_order Sample.assignee_empty Sample.db_v3 = [Sample.issue_v3]
  /\ q_assignee Sample.assignee_empty = Some EmptyString
  /\ assignee Sample.issue_v3 = Some "alice"
  /\ ~ (forall i, i ∈ list_issues Engine.scan_order Sample.assignee_empty Sample.db_v3 ->
                  assignee i = q_assignee Sample.assignee_empty).
Proof.
  assert (E : list_issues Engine.scan_order Sample.assignee_empty Sample.db_v3
              = [Sample.issue_v3]) by (vm_compute; reflexivity).
  repeat split; try done.
  intros H. specialize (H Sample.issue_v3). rewrite E in H.
  specialize (H (list_elem_of_here _ _)). discriminate.
Qed.

(** A search term with a wildcard selects rows that do not contain it. *)
Example search_wildcard_selects_more :
  selected (mkListParams None None None (Some "_") 0 100) Sample.issue_v3 = true
  /\ ~ contains_ci "_" (title Sample.issue_v3).
Proof.
  split; [vm_compute; reflexivity|].
  intros (pre & post & H). vm_compute in H.
  repeat (destruct pre as [|? pre]; [discriminate|]; injection H as _ H).
  destruct pre; discriminate.
Qed.

(** ** Ordering and pagination *)

#[local] Instance newest_first_transitive : Transitive Engine.newest_first.
Proof. intros a b c. unfold Engine.newest_first. lia. Qed.

#[local] Instance newest_first_total : Total Engine.newest_first.
Proof. intros a b. unfold Engine.newest_first. lia. Qed.


Lemma StronglySorted_drop {A} (R : relation A) (n : nat) (l : list A) :
  StronglySorted R l -> StronglySorted R (drop n l).
Proof.
  intros H. rewrite <- (take_drop n l) in H. by apply StronglySorted_app_1_r in H.
Qed.


Lemma scan_order_contract :
  (forall l, Engine.scan_order l ≡ₚ l)
  /\ (forall l, newest_first_sorted (Engine.scan_order l)).
Proof.
  split; intros l.
  - apply merge_sort_Permutation.
  - apply StronglySorted_merge_sort; apply _.
Qed.

Lemma StronglySorted_filter {A} (R : relation A) (P : A -> Prop)
    `{!forall x, Decision (P x)} (l : list A) :
  StronglySorted R l -> StronglySorted R (filter P l).
Proof.
  induction 1 as [|a l Hl IH Ha]; [constructor|].
  rewrite filter_cons. destruct (decide (P a)); [|done].
  constructor; [done|]. apply Forall_forall. intros b Hb.
  apply list_elem_of_filter in Hb as [_ Hb]. rewrite Forall_forall in Ha. auto.
Qed.



(** Sorting by insertion meets [ORDER BY created_at DESC] and keeps the rows
    of one instant in the order of the scan. *)
Lemma insert_newest_Permutation x l : Engine.insert_newest x l ≡ₚ x :: l.
Proof.
  induction l as [|y l IH]; [done|]. simpl.
  destruct (decide (created_at x < created_at y)); [|done].
  rewrite IH. apply Permutation_swap.
Qed.

Lemma insert_newest_sorted x l :
  newest_first_sorted l -> newest_first_sorted (Engine.insert_newest x l).
Proof.
  unfold newest_first_sorted.
  induction 1 as [|y l Hl IH Hy]; simpl; [repeat constructor|].
  destruct (decide (created_at x < created_at y)) as [Hlt|Hge].
  - constructor; [done|]. rewrite insert_newest_Permutation.
    constructor; [unfold Engine.newest_first; lia|done].
  - constructor; [by constructor|].
    constructor; [unfold Engine.newest_first; lia|].
    eapply Forall_impl; [exact Hy|]. unfold Engine.newest_first. intros z Hz. lia.
Qed.

Lemma insert_newest_filter x l t :
  filter (fun i => created_at i = t) (Engine.insert_newest x l)
  = filter (fun i => created_at i = t) (x :: l).
Proof.
  induction l as [|y l IH]; [done|]. simpl.
  destruct (decide (created_at x < created_at y)) as [Hlt|]; [|done].
  rewrite (filter_cons _ y), IH, !(filter_cons _ x), (filter_cons _ y).
  destruct (decide (created_at y = t)), (decide (created_at x = t)); try done. lia.
Qed.

Lemma insertion_order_contract :
  (forall l, Engine.insertion_order l ≡ₚ l)
  /\ (forall l, newest_first_sorted (Engine.insertion_order l))
  /\ ties_in_insertion_order Engine.insertion_order.
Proof.
  split; [|split].
  - induction l as [|x l IH]; [done|]. simpl.
    by rewrite insert_newest_Permutation, IH.
  - induction l as [|x l IH]; [constructor|]. simpl. by apply insert_newest_sorted.
  - intros l t. induction l as [|x l IH]; [done|]. simpl.
    by rewrite insert_newest_filter, !(filter_cons _ x), IH.
Qed.

(** Every request keeps the table in ascending key order. *)
Lemma keys_ascending_ids (l : list Issue) :
  StronglySorted key_before l <-> StronglySorted Z.lt (id <$> l).
Proof.
  split; [apply StronglySorted_fmap; auto|].
  induction l as [|a l IH]; [constructor|]. rewrite fmap_cons.
  intros H. apply StronglySorted_inv in H as [Hl Ha].
  constructor; [by apply IH|]. by rewrite Forall_fmap in Ha.
Qed.

Lemma db_add_keys_ascending now c db :
  keys_fresh db -> keys_ascending db -> keys_ascending (db_add now c db).
Proof.
  intros [_ Hlt] Hasc. unfold keys_ascending, db_add. simpl.
  apply StronglySorted_app_2; [|exact Hasc|repeat constructor].
  intros a b Ha Hb. apply list_elem_of_singleton in Hb as ->.
  unfold key_before. simpl. by apply Hlt.
Qed.

Lemma import_loop_keys_ascending str clock commit_fault reader : forall n st,
  keys_fresh (Csv.l_db st) -> keys_ascending (Csv.l_db st) ->
  keys_ascending (Csv.l_db (Csv.import_loop str clock commit_fault n reader st)).
Proof.
  induction reader as [|r reader IH]; intros n st Hfresh Hasc; [done|]. simpl.
  unfold Csv.import_row.
  destruct (Csv.parse_csv_row str r n) as [[c|] [e|]]; simpl; try (by apply IH).
  unfold Csv.add_commit. destruct (commit_fault n); simpl; [by apply IH|].
  apply IH; simpl; [by apply db_add_keys_fresh|by apply db_add_keys_ascending].
Qed.

Lemma handle_keys_ascending req db :
  keys_fresh db -> keys_ascending db -> keys_ascending (handle req db).
Proof.
  intros Hfresh Hasc.
  destruct req as [now c|now issue_id u|issue_id|now bu|bd|str clock fault reader];
    simpl.
  - by apply db_add_keys_ascending.
  - destruct (update_issue now issue_id u db) as [[e|i1] db'] eqn:Hup.
    + simpl. assert (db' = db) as ->; [|done].
      revert Hup. unfold update_issue, commit_update.
      destruct (Sql.first_by_id issue_id db) as [[k i]|]; [|by intros [= _ <-]].
      destruct (iu_version u) as [v|].
      * destruct (decide _); [by intros [= _ <-]|].
        destruct (null_columns u); [discriminate|by intros [= _ <-]].
      * destruct (null_columns u); [discriminate|by intros [= _ <-]].
    + apply update_issue_ok in Hup as (k & i & Hk & -> & Hup & _). simpl.
      apply list_find_Some in Hk as (Hk & _ & _).
      unfold keys_ascending. apply keys_ascending_ids.
      rewrite Hup, list_fmap_insert, list_insert_id.
      * by apply keys_ascending_ids.
      * by rewrite list_lookup_fmap, Hk.
  - unfold delete_issue.
    destruct (Sql.first_by_id issue_id db) as [[k i]|]; simpl; [|done].
    unfold keys_ascending in *. simpl.
    rewrite delete_take_drop.
    replace (S k) with (k + 1)%nat by lia. rewrite <- drop_drop.
    rewrite <- (take_drop k (issues db)) in Hasc.
    apply StronglySorted_app_2.
    + intros a b Ha Hb. apply (StronglySorted_app_1_elem_of _ _ _ _ _ Hasc); [done|].
      by apply (subseteq_drop 1).
    + by apply StronglySorted_app_1_l in Hasc.
    + apply StronglySorted_app_1_r in Hasc. by apply (StronglySorted_drop _ 1) in Hasc.
  - destruct (bulk_update_issues now bu db) as [[e|res] db'] eqn:Hup; simpl.
    + by apply bulk_update_issues_err in Hup as (_ & _ & ->).
    + apply bulk_update_issues_ok in Hup as (_ & Hup & _ & _).
      unfold keys_ascending. apply keys_ascending_ids.
      assert (Hids : id <$> issues db' = id <$> issues db).
      { rewrite Hup, <- list_fmap_compose. apply fmap_ext_elem.
        intros i _. simpl. by destruct (decide _). }
      rewrite Hids. by apply keys_ascending_ids.
  - unfold bulk_delete_issues.
    destruct (Sql.all_by_ids (bd_issue_ids bd) db); simpl; [done|].
    by apply StronglySorted_filter.
  - by apply import_loop_keys_ascending.
Qed.

(** The tables that a run of requests reaches from the empty table hold
    their rows in ascending key order. *)
Lemma run_keys_ascending (reqs : list Request) :
  keys_ascending (foldl (fun db r => handle r db) Sample.empty_db reqs).
Proof.
  assert (H0 : keys_fresh Sample.empty_db /\ keys_ascending Sample.empty_db).
  { split; [|constructor].
    split; simpl; [apply NoDup_nil_2|]. intros i Hi. by apply not_elem_of_nil in Hi. }
  revert H0. generalize Sample.empty_db.
  induction reqs as [|r reqs IH]; intros db [Hfresh Hasc]; [done|]. simpl.
  apply IH. split; [by apply handle_keys_fresh|by apply handle_keys_ascending].
Qed.



(** * Further properties *)

(** ** Rows accepted by the importer *)

Section Accepting.

Variable str : Exception -> string.

Lemma strip_column v s : Csv.strip v = inr s <-> Text.strip <$> v = Some s.
Proof.
  destruct v as [t|]; simpl; split; try discriminate.
  - by intros [= ->].
  - by intros [= ->].
Qed.

Lemma len_nonneg s : 0 <= Text.len s.
Proof. unfold Text.len. lia. Qed.

Lemma chars_nonempty c s : Text.chars (String c s) <> [].
Proof.
  simpl. destruct (Text.chars s) as [|ch rest]; [done|].
  by destruct (Text.starts_with_continuation ch).
Qed.

Lemma len_empty s : Text.len s < 1 <-> s = EmptyString.
Proof.
  unfold Text.len. destruct s as [|c s]; [simpl; split; [done|lia]|].
  pose proof (chars_nonempty c s) as Hne.
  destruct (Text.chars (String c s)); [done|]. split; [simpl; lia|discriminate].
Qed.

Lemma check_min_nil model field n s : check_min model field n s = [] <-> n <= Text.len s.
Proof. unfold check_min. destruct (Z.ltb_spec (Text.len s) n); split; try done; lia. Qed.

Lemma check_max_nil model field n s : check_max model field n s = [] <-> Text.len s <= n.
Proof. unfold check_max. destruct (Z.ltb_spec n (Text.len s)); split; try done; lia. Qed.

Lemma check_max_opt_nil model field n o :
  check_max_opt model field n o = [] <-> forall x, o = Some x -> Text.len x <= n.
Proof.
  destruct o as [x|]; simpl.
  - rewrite check_max_nil. split; [by intros ? ? [= <-]|auto].
  - split; [discriminate|done].
Qed.

(** The constructor of [IssueCreate] succeeds exactly on fields within the
    bounds of the schema. *)
Lemma IssueCreate_new_ok t d st pr a p c :
  IssueCreate_new t d st pr a p = inr c <->
  (1 <= Text.len t <= 200
   /\ (forall x, a = Some x -> Text.len x <= 100)
   /\ (forall x, p = Some x -> Text.len x <= 100))
  /\ c = mkIssueCreate t d st pr a p.
Proof.
  unfold IssueCreate_new.
  destruct (_ ++ _) as [|f fs] eqn:Hchecks.
  - apply app_eq_nil in Hchecks as [H1 Hchecks].
    apply app_eq_nil in Hchecks as [H2 Hchecks].
    apply app_eq_nil in Hchecks as [H3 H4].
    apply check_min_nil in H1. apply check_max_nil in H2.
    pose proof (proj1 (check_max_opt_nil _ _ _ _) H3) as Ha.
    pose proof (proj1 (check_max_opt_nil _ _ _ _) H4) as Hp.
    split; [by intros [= <-]|by intros [_ ->]].
  - split; [discriminate|]. intros [(Ht & Ha & Hp) _]. exfalso.
    assert (Hnil : check_min "IssueCreate" "title" 1 t
                   ++ check_max "IssueCreate" "title" 200 t
                   ++ check_max_opt "IssueCreate" "assignee" 100 a
                   ++ check_max_opt "IssueCreate" "reporter" 100 p = []).
    { rewrite (proj2 (check_min_nil _ _ _ _)) by lia.
      rewrite (proj2 (check_max_nil _ _ _ _)) by lia.
      rewrite (proj2 (check_max_opt_nil _ _ _ _) Ha).
      by rewrite (proj2 (check_max_opt_nil _ _ _ _) Hp). }
    rewrite Hnil in Hchecks. discriminate.
Qed.

Lemma parse_csv_row_try_accepts r n res :
  Csv.parse_csv_row_try r n = inr res <->
  exists st pr t d a p,
    column r "status" "open" = Some st
    /\ column r "priority" "medium" = Some pr
    /\ column r "title" EmptyString = Some t
    /\ column r "description" EmptyString = Some d
    /\ column r "assignee" EmptyString = Some a
    /\ column r "reporter" EmptyString = Some p
    /\ 1 <= Text.len t <= 200 /\ Text.len a <= 100 /\ Text.len p <= 100
    /\ res = (Some (mkIssueCreate t (Text.or_None d)
                      (Csv.parse_status (Text.lower st))
                      (Csv.parse_priority (Text.lower pr))
                      (Text.or_None a) (Text.or_None p)), None).
Proof.
  unfold Csv.parse_csv_row_try, column.
  destruct (Csv.get r "status" "open") as [st|]; simpl;
    [|split; [discriminate|intros (?&?&?&?&?&?&[=]&_)]].
  destruct (Csv.get r "priority" "medium") as [pr|]; simpl;
    [|split; [discriminate|intros (?&?&?&?&?&?&_&[=]&_)]].
  destruct (Csv.get r "title" EmptyString) as [t|]; simpl;
    [|split; [discriminate|intros (?&?&?&?&?&?&_&_&[=]&_)]].
  destruct (Csv.get r "description" EmptyString) as [d|]; simpl;
    [|split; [discriminate|intros (?&?&?&?&?&?&_&_&_&[=]&_)]].
  destruct (Csv.get r "assignee" EmptyString) as [a|]; simpl;
    [|split; [discriminate|intros (?&?&?&?&?&?&_&_&_&_&[=]&_)]].
  destruct (Csv.get r "reporter" EmptyString) as [p|]; simpl;
    [|split; [discriminate|intros (?&?&?&?&?&?&_&_&_&_&_&[=]&_)]].
  destruct (IssueCreate_new _ _ _ _ _ _) as [e|c] eqn:Hnew; simpl.
  - split; [discriminate|].
    intros (st'&pr'&t'&d'&a'&p'&[= <-]&[= <-]&[= <-]&[= <-]&[= <-]&[= <-]&Ht&Ha&Hp&_).
    assert (Hok : IssueCreate_new (Text.strip t) (Text.or_None (Text.strip d))
                    (Csv.parse_status (Text.lower (Text.strip st)))
                    (Csv.parse_priority (Text.lower (Text.strip pr)))
                    (Text.or_None (Text.strip a)) (Text.or_None (Text.strip p))
                  = inr (mkIssueCreate (Text.strip t) (Text.or_None (Text.strip d))
                           (Csv.parse_status (Text.lower (Text.strip st)))
                           (Csv.parse_priority (Text.lower (Text.strip pr)))
                           (Text.or_None (Text.strip a)) (Text.or_None (Text.strip p)))).
    { apply IssueCreate_new_ok. split; [|done]. split; [done|].
      split; intros x Hx; unfold Text.or_None in Hx;
        destruct (Text.truthy _); try discriminate; by injection Hx as <-. }
    rewrite Hok in Hnew. discriminate.
  - apply IssueCreate_new_ok in Hnew as [(Ht & Ha & Hp) ->]. simpl.
    assert (Htr : Text.truthy (Text.strip t) = true).
    { destruct (Text.strip t); [|done]. unfold Text.len in Ht. simpl in Ht. lia. }
    rewrite Htr. simpl. split.
    + intros [= <-]. exists (Text.strip st), (Text.strip pr), (Text.strip t),
        (Text.strip d), (Text.strip a), (Text.strip p).
      repeat split; try done; try lia.
      * unfold Text.or_None in Ha. destruct (Text.strip a) as [|ch s'] eqn:E.
        -- unfold Text.len. simpl. lia.
        -- apply (Ha (String ch s')). reflexivity.
      * unfold Text.or_None in Hp. destruct (Text.strip p) as [|ch s'] eqn:E.
        -- unfold Text.len. simpl. lia.
        -- apply (Hp (String ch s')). reflexivity.
    + intros (st'&pr'&t'&d'&a'&p'&[= <-]&[= <-]&[= <-]&[= <-]&[= <-]&[= <-]&_&_&_&->).
      reflexivity.
Qed.

(** An accepted row yields fields within the bounds of the schema, and no
    optional field that is the empty string. *)
Lemma parse_csv_row_valid r n c :
  Csv.parse_csv_row str r n = (Some c, None) ->
  valid_create c
  /\ ic_title c <> EmptyString
  /\ ic_description c <> Some EmptyString
  /\ ic_assignee c <> Some EmptyString
  /\ ic_reporter c <> Some EmptyString.
Proof.
  unfold Csv.parse_csv_row.
  destruct (Csv.parse_csv_row_try r n) as [e|res] eqn:Htry; [discriminate|].
  apply parse_csv_row_try_accepts in Htry
    as (st&pr&t&d&a&p&_&_&_&_&_&_&Ht&Ha&Hp&->).
  intros [= <-]. unfold valid_create. simpl.
  assert (Hor : forall s, Text.or_None s <> Some EmptyString).
  { intros s. unfold Text.or_None. destruct s; simpl; discriminate. }
  assert (Hlen : forall s x b, Text.len s <= b -> Text.or_None s = Some x -> Text.len x <= b).
  { intros s x b Hb. unfold Text.or_None. destruct (Text.truthy s); [|discriminate].
    by intros [= <-]. }
  repeat split; try done; try lia; eauto.
  intros ->. unfold Text.len in Ht. simpl in Ht. lia.
Qed.

End Accepting.

(** A title of two no-break spaces is empty after trimming and is refused;
    a title of 200 characters of two bytes each is within the bound. *)
Example titles_beyond_ascii (str : Exception -> string) :
  (Csv.parse_csv_row str {[ "title" := Some (Text.NBSP +:+ Text.NBSP) ]} 2).1 = None
  /\ (Csv.parse_csv_row str
        {[ "title" := Some (Text.join (replicate 200 Text.E_ACUTE)) ]} 2).2 = None.
Proof. split; vm_compute; reflexivity. Qed.

(** X1. [parse_csv_row] returns an issue exactly when each of the six
    columns is absent or holds a string, the trimmed title has 1 to 200
    characters and the trimmed assignee and reporter have at most 100; the
    issue then carries the trimmed title, the trimmed optional fields with
    the empty string turned into an absent value, and the normalised status
    and priority. In every other case it returns no issue and one error
    entry with the number of the row. *)
Theorem parse_csv_row_accepts (str : Exception -> string)
    (r : gmap string (option string)) (n : Z) :
  (forall c,
     Csv.parse_csv_row str r n = (Some c, None) <->
     exists st pr t d a p,
       column r "status" "open" = Some st
       /\ column r "priority" "medium" = Some pr
       /\ column r "title" EmptyString = Some t
       /\ column r "description" EmptyString = Some d
       /\ column r "assignee" EmptyString = Some a
       /\ column r "reporter" EmptyString = Some p
       /\ 1 <= Text.len t <= 200 /\ Text.len a <= 100 /\ Text.len p <= 100
       /\ c = mkIssueCreate t (Text.or_None d)
                (Csv.parse_status (Text.lower st))
                (Csv.parse_priority (Text.lower pr))
                (Text.or_None a) (Text.or_None p))
  /\ ((exists c, Csv.parse_csv_row str r n = (Some c, None))
      \/ (exists msg, Csv.parse_csv_row str r n = (None, Some (mkRowError n msg)))).
Proof.
  split.
  - intros c. unfold Csv.parse_csv_row.
    destruct (Csv.parse_csv_row_try r n) as [e|res] eqn:Htry.
    + split; [discriminate|].
      intros (st&pr&t&d&a&p&H1&H2&H3&H4&H5&H6&Ht&Ha&Hp&->).
      assert (Hacc : Csv.parse_csv_row_try r n
                     = inr (Some (mkIssueCreate t (Text.or_None d)
                                    (Csv.parse_status (Text.lower st))
                                    (Csv.parse_priority (Text.lower pr))
                                    (Text.or_None a) (Text.or_None p)), None)).
      { apply parse_csv_row_try_accepts. exists st, pr, t, d, a, p. done. }
      rewrite Hacc in Htry. discriminate.
    + pose proof Htry as Htry'.
      apply parse_csv_row_try_accepts in Htry
        as (st&pr&t&d&a&p&H1&H2&H3&H4&H5&H6&Ht&Ha&Hp&->).
      split.
      * intros [= <-]. exists st, pr, t, d, a, p. done.
      * intros (st'&pr'&t'&d'&a'&p'&H1'&H2'&H3'&H4'&H5'&H6'&_&_&_&->).
        rewrite H1 in H1'. rewrite H2 in H2'. rewrite H3 in H3'.
        rewrite H4 in H4'. rewrite H5 in H5'. rewrite H6 in H6'.
        by simplify_eq.
  - unfold Csv.parse_csv_row.
    destruct (Csv.parse_csv_row_try r n) as [e|res] eqn:Htry; [right; eauto|].
    apply parse_csv_row_try_accepts in Htry as (st&pr&t&d&a&p&_&_&_&_&_&_&_&_&_&->).
    left. eauto.
Qed.

(** ** What the import stores *)

Section Stored.

Variable str : Exception -> string.
Variable clock : Z -> Z.
Variable commit_fault : Z -> option Exception.

(** The rows that the loop appends: one per successful row, in order, keyed
    from the sequence, each built from an accepted row of the file. *)
Lemma import_loop_added reader : forall n st,
  let st' := Csv.import_loop str clock commit_fault n reader st in
  exists added,
    issues (Csv.l_db st') = issues (Csv.l_db st) ++ added
    /\ next_id (Csv.l_db st') = next_id (Csv.l_db st) + Z.of_nat (length added)
    /\ Csv.l_successful st' = Csv.l_successful st + Z.of_nat (length added)
    /\ forall k i, added !! k = Some i ->
         id i = next_id (Csv.l_db st) + Z.of_nat k
         /\ exists j r c,
              reader !! j = Some r
              /\ Csv.parse_csv_row str r (n + Z.of_nat j) = (Some c, None)
              /\ i = new_issue (id i) (clock (n + Z.of_nat j)) c.
Proof.
  induction reader as [|r reader IH]; intros n st; simpl.
  - exists []. rewrite app_nil_r. simpl.
    split; [done|]. split; [lia|]. split; [lia|]. intros k i [=].
  - destruct (IH (n + 1) (Csv.import_row str clock commit_fault n r st))
      as (added & Happ & Hnext & Hsucc & Hrows).
    assert (Hshift : forall k i, added !! k = Some i ->
              exists j r0 c,
                (r :: reader) !! j = Some r0
                /\ Csv.parse_csv_row str r0 (n + Z.of_nat j) = (Some c, None)
                /\ i = new_issue (id i) (clock (n + Z.of_nat j)) c).
    { intros k i Hk. destruct (Hrows k i Hk) as (_ & j & r0 & c & Hj & Hp & Hi).
      exists (S j), r0, c. simpl. split; [done|].
      replace (n + Z.of_nat (S j)) with (n + 1 + Z.of_nat j) by lia. done. }
    unfold Csv.import_row in *.
    destruct (Csv.parse_csv_row str r n) as [[c|] [e|]] eqn:Hp; simpl in *.
    + exists added. split; [done|]. split; [done|]. split; [done|].
      intros k i Hk. split; [by apply Hrows|by eapply Hshift].
    + unfold Csv.add_commit in *. destruct (commit_fault n) eqn:Hfault; simpl in *.
      * exists added. split; [done|]. split; [done|]. split; [lia|].
        intros k i Hk. split; [by apply Hrows|by eapply Hshift].
      * exists (new_issue (next_id (Csv.l_db st)) (clock n) c :: added).
        split; [by rewrite Happ, <- app_assoc|].
        split; [simpl length; lia|]. split; [simpl length; lia|].
        intros [|k] i Hk; simpl in Hk.
        -- injection Hk as <-. simpl. split; [lia|].
           exists 0%nat, r, c. simpl. rewrite Z.add_0_r. done.
        -- destruct (Hrows k i Hk) as (Hid & _). split; [lia|]. by eapply Hshift.
    + exists added. split; [done|]. split; [done|]. split; [done|].
      intros k i Hk. split; [by apply Hrows|by eapply Hshift].
    + exists added. split; [done|]. split; [done|]. split; [done|].
      intros k i Hk. split; [by apply Hrows|by eapply Hshift].
Qed.

End Stored.

Lemma Db_eq (db db' : Db) :
  issues db' = issues db -> next_id db' = next_id db -> db' = db.
Proof. destruct db, db'. simpl. by intros -> ->. Qed.

(** X2. Every issue that a CSV import adds to the table has a non-empty
    title of at most 200 characters, an assignee and a reporter of at most
    100 characters, no optional field that is the empty string, version 1
    and equal creation and update times. *)
Theorem imported_issues_are_valid
    (str : Exception -> string) (clock : Z -> Z)
    (commit_fault : Z -> option Exception)
    (reader : list (gmap string (option string))) (db : Db) :
  let db' := (Csv.import_issues_from_csv str clock commit_fault reader db).2 in
  exists added,
    issues db' = issues db ++ added
    /\ Forall (fun i =>
                 title i <> EmptyString
                 /\ 1 <= Text.len (title i) <= 200
                 /\ description i <> Some EmptyString
                 /\ assignee i <> Some EmptyString
                 /\ reporter i <> Some EmptyString
                 /\ (forall a, assignee i = Some a -> Text.len a <= 100)
                 /\ (forall p, reporter i = Some p -> Text.len p <= 100)
                 /\ version i = 1
                 /\ created_at i = updated_at i) added.
Proof.
  destruct (import_loop_added str clock commit_fault reader 2 (Csv.mkLoop 0 0 0 [] db))
    as (added & Happ & _ & _ & Hrows).
  exists added. split; [exact Happ|].
  apply Forall_forall. intros i Hi.
  apply list_elem_of_lookup in Hi as [k Hk].
  destruct (Hrows k i Hk) as (_ & j & r & c & _ & Hp & ->).
  apply parse_csv_row_valid in Hp as ((Ht & Ha & Hp') & Hne & Hd & Ha' & Hr').
  simpl. repeat split; try done; lia.
Qed.

(** X3. A CSV import appends to the table exactly [successful] issues and
    changes no stored issue: the new issues are keyed consecutively from the
    next value of the sequence, which advances by [successful]; the total
    that the statistics report grows by [successful]; and when no row
    succeeds the table is the table it was. *)
Theorem import_appends_successful_rows
    (str : Exception -> string) (clock : Z -> Z)
    (commit_fault : Z -> option Exception)
    (reader : list (gmap string (option string))) (db : Db) :
  let out := Csv.import_issues_from_csv str clock commit_fault reader db in
  exists added,
    issues out.2 = issues db ++ added
    /\ Z.of_nat (length added) = successful out.1
    /\ next_id out.2 = next_id db + successful out.1
    /\ (forall k i, added !! k = Some i ->
          id i = next_id db + Z.of_nat k /\ version i = 1)
    /\ st_total_issues (get_issue_stats out.2)
       = st_total_issues (get_issue_stats db) + successful out.1
    /\ (successful out.1 = 0 -> out.2 = db).
Proof.
  destruct (import_loop_added str clock commit_fault reader 2 (Csv.mkLoop 0 0 0 [] db))
    as (added & Happ & Hnext & Hsucc & Hrows).
  simpl in Happ, Hnext, Hsucc.
  exists added. simpl. split; [exact Happ|]. split; [lia|]. split; [lia|].
  split; [|split].
  - intros k i Hk. destruct (Hrows k i Hk) as (Hid & j & r & c & _ & _ & Hi).
    split; [exact Hid|]. by rewrite Hi.
  - assert (Hall : forall l : list Issue, filter (fun _ : Issue => True) l = l).
    { induction l as [|x l IHl]; [done|]. rewrite filter_cons_True by done. by rewrite IHl. }
    unfold get_issue_stats, Sql.count. simpl. rewrite Happ, !Hall, length_app. lia.
  - intros Hzero.
    assert (added = []) as -> by (destruct added; [done|simpl in Hsucc; lia]).
    rewrite app_nil_r in Happ. simpl in Hnext.
    apply Db_eq; [exact Happ|lia].
Qed.

(** ** Export *)

(** X4. The exported value of a status or a priority is read back by the
    importer as the same status or priority, and different members have
    different exported values. *)
Theorem enum_values_round_trip :
  (forall s, Csv.normalize_status (status_value s) = s)
  /\ (forall p, Csv.normalize_priority (priority_value p) = p)
  /\ (forall s1 s2, status_value s1 = status_value s2 -> s1 = s2)
  /\ (forall p1 p2, priority_value p1 = priority_value p2 -> p1 = p2).
Proof.
  repeat split.
  - intros []; reflexivity.
  - intros []; reflexivity.
  - intros [] []; simpl; congruence.
  - intros [] []; simpl; congruence.
Qed.

Section Exported.

Variable isoformat : Z -> string.

Lemma writerow_export_dict i :
  CsvIO.writerow (CsvIO.export_dict isoformat i)
  = [ pretty (id i); title i; CsvIO.or_empty (description i);
      status_value (status i); priority_value (priority i);
      CsvIO.or_empty (assignee i); CsvIO.or_empty (reporter i);
      isoformat (created_at i); isoformat (updated_at i) ].
Proof.
  unfold CsvIO.writerow, CsvIO.export_dict, CsvIO.fieldnames. simpl.
  repeat (f_equal; [by simplify_map_eq|]). done.
Qed.

Lemma dict_row_export v1 v2 v3 v4 v5 v6 v7 v8 v9 :
  let r := CsvIO.dict_row CsvIO.fieldnames [v1; v2; v3; v4; v5; v6; v7; v8; v9] in
  Csv.get r "title" EmptyString = Some v2
  /\ Csv.get r "description" EmptyString = Some v3
  /\ Csv.get r "status" "open" = Some v4
  /\ Csv.get r "priority" "medium" = Some v5
  /\ Csv.get r "assignee" EmptyString = Some v6
  /\ Csv.get r "reporter" EmptyString = Some v7.
Proof.
  unfold CsvIO.dict_row, CsvIO.fieldnames, Csv.get. simpl.
  repeat split; by simplify_map_eq.
Qed.

End Exported.

(** X5. The records that the exporter writes are the header with the nine
    field names followed by one record per issue in the order given; each
    record has nine fields: key, title, description, status value, priority
    value, assignee, reporter and the two rendered timestamps, with the
    empty string for an optional field that is absent. The version is not
    among them. *)
Theorem export_records_shape (isoformat : Z -> string) (l : list Issue) :
  let recs := CsvIO.export_records isoformat l in
  length recs = S (length l)
  /\ recs !! 0%nat
     = Some ["id"; "title"; "description"; "status"; "priority"; "assignee";
             "reporter"; "created_at"; "updated_at"]
  /\ (forall k i, l !! k = Some i ->
        recs !! S k
        = Some [ pretty (id i); title i;
                 match description i with Some d => d | None => EmptyString end;
                 status_value (status i); priority_value (priority i);
                 match assignee i with Some a => a | None => EmptyString end;
                 match reporter i with Some p => p | None => EmptyString end;
                 isoformat (created_at i); isoformat (updated_at i) ])
  /\ Forall (fun r => length r = 9%nat) recs.
Proof.
  assert (Hor : forall o, CsvIO.or_empty o
                          = match o with Some d => d | None => EmptyString end).
  { intros [[|c s]|]; reflexivity. }
  unfold CsvIO.export_records. split; [simpl; by rewrite length_fmap|].
  split; [reflexivity|]. split.
  - intros k i Hk.
    change ((((fun issue => CsvIO.writerow (CsvIO.export_dict isoformat issue)) <$> l)
             !! k) = Some [ pretty (id i); title i;
                 match description i with Some d => d | None => EmptyString end;
                 status_value (status i); priority_value (priority i);
                 match assignee i with Some a => a | None => EmptyString end;
                 match reporter i with Some p => p | None => EmptyString end;
                 isoformat (created_at i); isoformat (updated_at i) ]).
    rewrite list_lookup_fmap, Hk.
    change (Some (CsvIO.writerow (CsvIO.export_dict isoformat i)) = Some [ pretty (id i); title i;
                 match description i with Some d => d | None => EmptyString end;
                 status_value (status i); priority_value (priority i);
                 match assignee i with Some a => a | None => EmptyString end;
                 match reporter i with Some p => p | None => EmptyString end;
                 isoformat (created_at i); isoformat (updated_at i) ]).
    by rewrite writerow_export_dict, !Hor.
  - constructor; [reflexivity|]. apply Forall_fmap, Forall_forall.
    intros i _.
    change (length (CsvIO.writerow (CsvIO.export_dict isoformat i)) = 9%nat).
    by rewrite writerow_export_dict.
Qed.

(** ** Export and import *)

Lemma strip_empty : Text.strip EmptyString = EmptyString.
Proof. reflexivity. Qed.

Lemma len_positive s : s <> EmptyString -> 1 <= Text.len s.
Proof.
  intros Hne. destruct (Z.ltb_spec (Text.len s) 1) as [Hlt|]; [|done].
  by apply len_empty in Hlt.
Qed.

(** An optional field comes back from [or ''], [strip] and [or None]
    exactly when it is absent or trimmed and not empty. *)
Lemma kept_opt_round_trip o :
  Text.or_None (Text.strip (CsvIO.or_empty o)) = o <-> kept_opt None o.
Proof.
  destruct o as [[|c s]|]; unfold kept_opt, kept_text.
  - change (CsvIO.or_empty (Some EmptyString)) with EmptyString.
    rewrite strip_empty. split; [discriminate|]. by intros [[_ Hne] _].
  - change (CsvIO.or_empty (Some (String c s))) with (String c s).
    unfold Text.or_None. split.
    + destruct (Text.truthy (Text.strip (String c s))); [|discriminate].
      by intros [= ->].
    + by intros [[-> _] _].
  - change (CsvIO.or_empty None) with EmptyString. by rewrite strip_empty.
Qed.

Lemma kept_opt_bound n o :
  0 <= n -> kept_opt None o ->
  (Text.len (Text.strip (CsvIO.or_empty o)) <= n <-> kept_opt (Some n) o).
Proof.
  intros Hn. destruct o as [[|c s]|]; unfold kept_opt, kept_text.
  - by intros [[_ Hne] _].
  - change (CsvIO.or_empty (Some (String c s))) with (String c s).
    intros [[Hs Hne] _].
    split; [intros Hl; rewrite Hs in Hl; done|intros [_ Hl]; by rewrite Hs].
  - intros _. change (CsvIO.or_empty None) with EmptyString. rewrite strip_empty.
    change (Text.len EmptyString) with 0. tauto.
Qed.

Lemma kept_opt_weaken n o : kept_opt (Some n) o -> kept_opt None o.
Proof. destruct o; unfold kept_opt; tauto. Qed.

Lemma exported_enums_parse i :
  Csv.parse_status (Text.lower (Text.strip (status_value (status i)))) = status i
  /\ Csv.parse_priority (Text.lower (Text.strip (priority_value (priority i))))
     = priority i.
Proof. by destruct (status i), (priority i). Qed.

(** X6. The record that the exporter writes for an issue, taken as a row
    under the exporter's own header, is accepted by [parse_csv_row] with the
    title, description, status, priority, assignee and reporter of the issue
    exactly when the title is trimmed, not empty and of at most 200
    characters and each optional field is absent or trimmed, not empty and
    within its bound. The statement is about the records that are handed to
    and taken from the [csv] module; the text between them is no part of
    it. *)
Theorem exported_record_is_accepted
    (str : Exception -> string) (isoformat : Z -> string) (i : Issue) (n : Z) :
  Csv.parse_csv_row str
    (CsvIO.dict_row CsvIO.fieldnames (CsvIO.writerow (CsvIO.export_dict isoformat i))) n
  = (Some (mkIssueCreate (title i) (description i) (status i) (priority i)
             (assignee i) (reporter i)), None)
  <-> importable i.
Proof.
  rewrite writerow_export_dict.
  destruct (dict_row_export (pretty (id i)) (title i) (CsvIO.or_empty (description i))
              (status_value (status i)) (priority_value (priority i))
              (CsvIO.or_empty (assignee i)) (CsvIO.or_empty (reporter i))
              (isoformat (created_at i)) (isoformat (updated_at i)))
    as (G1 & G2 & G3 & G4 & G5 & G6).
  set (r := CsvIO.dict_row _ _) in *.
  destruct (exported_enums_parse i) as [Hs Hq].
  unfold Csv.parse_csv_row, importable, kept_text. split.
  - destruct (Csv.parse_csv_row_try r n) as [e|res] eqn:Htry; [discriminate|].
    intros ->.
    apply parse_csv_row_try_accepts in Htry
      as (st & pr & t & d & a & p & C1 & C2 & C3 & C4 & C5 & C6 & Ht & Ha & Hp & Hc).
    unfold column in C1, C2, C3, C4, C5, C6.
    rewrite G1 in C3. rewrite G2 in C4. rewrite G3 in C1. rewrite G4 in C2.
    rewrite G5 in C5. rewrite G6 in C6.
    injection C1 as <-. injection C2 as <-. injection C3 as <-.
    injection C4 as <-. injection C5 as <-. injection C6 as <-.
    injection Hc as Et Ed _ _ Ea Ep.
    symmetry in Ed, Ea, Ep.
    apply kept_opt_round_trip in Ed, Ea, Ep.
    rewrite <- Et in Ht.
    split; [split; [done|]|].
    { intros E. rewrite E in Ht. change (Text.len EmptyString) with 0 in Ht. lia. }
    split; [lia|]. split; [done|].
    assert (H100 : 0 <= 100) by lia.
    split.
    + exact (proj1 (kept_opt_bound 100 _ H100 Ea) Ha).
    + exact (proj1 (kept_opt_bound 100 _ H100 Ep) Hp).
  - intros ([Ht Hne] & Hlen & Hd & Ha & Hp).
    assert (Htry : Csv.parse_csv_row_try r n
                   = inr (Some (mkIssueCreate (title i) (description i) (status i)
                                  (priority i) (assignee i) (reporter i)), None)).
    { apply parse_csv_row_try_accepts.
      exists (Text.strip (status_value (status i))),
             (Text.strip (priority_value (priority i))),
             (Text.strip (title i)),
             (Text.strip (CsvIO.or_empty (description i))),
             (Text.strip (CsvIO.or_empty (assignee i))),
             (Text.strip (CsvIO.or_empty (reporter i))).
      unfold column. rewrite G1, G2, G3, G4, G5, G6. simpl.
      pose proof (len_positive (title i) Hne) as Hpos.
      split; [done|]. split; [done|]. split; [done|]. split; [done|].
      split; [done|]. split; [done|].
      split; [rewrite Ht; lia|].
      assert (H100 : 0 <= 100) by lia.
      split; [exact (proj2 (kept_opt_bound 100 _ H100 (kept_opt_weaken _ _ Ha)) Ha)|].
      split; [exact (proj2 (kept_opt_bound 100 _ H100 (kept_opt_weaken _ _ Hp)) Hp)|].
      rewrite Ht, Hs, Hq.
      rewrite (proj2 (kept_opt_round_trip _) Hd).
      rewrite (proj2 (kept_opt_round_trip _) (kept_opt_weaken _ _ Ha)).
      by rewrite (proj2 (kept_opt_round_trip _) (kept_opt_weaken _ _ Hp)). }
    by rewrite Htry.
Qed.

(** ** Lookup by key *)

Section Lookup.

Lemma get_issue_rows x l n n' : get_issue x (mkDb l n) = get_issue x (mkDb l n').
Proof. reflexivity. Qed.

Lemma get_issue_nil x n : get_issue x (mkDb [] n) = inl (not_found x).
Proof. reflexivity. Qed.

Lemma get_issue_cons x i l n :
  get_issue x (mkDb (i :: l) n)
  = if decide (id i = x) then inr i else get_issue x (mkDb l n).
Proof.
  unfold get_issue, Sql.first_by_id. simpl.
  destruct (decide (id i = x)); [done|].
  by destruct (list_find (fun i0 => id i0 = x) l) as [[k j]|].
Qed.

Lemma get_issue_app x l1 l2 n :
  get_issue x (mkDb (l1 ++ l2) n)
  = match get_issue x (mkDb l1 n) with
    | inr i => inr i
    | inl _ => get_issue x (mkDb l2 n)
    end.
Proof.
  induction l1 as [|i l1 IH]; [done|].
  rewrite <- app_comm_cons, !get_issue_cons. by destruct (decide (id i = x)).
Qed.

Lemma get_issue_absent x l n :
  Forall (fun i => id i <> x) l <-> get_issue x (mkDb l n) = inl (not_found x).
Proof.
  induction l as [|i l IH]; [done|].
  rewrite get_issue_cons, Forall_cons. destruct (decide (id i = x)).
  - split; [tauto|discriminate].
  - rewrite IH. tauto.
Qed.

Lemma get_issue_error x db e : get_issue x db = inl e -> e = not_found x.
Proof.
  unfold get_issue. destruct (Sql.first_by_id x db) as [[k i]|]; [discriminate|].
  by intros [= <-].
Qed.

(** The row that a lookup finds splits the table: no earlier row has the
    key, and with unique keys no later row has it either. *)
Lemma first_by_id_split x db k i :
  Sql.first_by_id x db = Some (k, i) ->
  exists l1 l2,
    issues db = l1 ++ i :: l2 /\ length l1 = k /\ id i = x
    /\ Forall (fun j => id j <> x) l1
    /\ (NoDup (id <$> issues db) -> Forall (fun j => id j <> x) l2).
Proof.
  intros H. apply list_find_Some in H as (Hk & Hid & Hbefore).
  exists (take k (issues db)), (drop (S k) (issues db)).
  split; [by rewrite take_drop_middle|].
  split; [apply length_take_le; apply lookup_lt_Some in Hk; lia|].
  split; [done|]. split.
  - apply Forall_forall. intros j Hj.
    apply list_elem_of_lookup in Hj as [a Ha].
    apply lookup_take_Some in Ha as [Ha Hlt]. by eapply Hbefore.
  - intros Hnd. apply Forall_forall. intros j Hj Hjx.
    rewrite <- (take_drop_middle _ _ _ Hk), fmap_app, fmap_cons in Hnd.
    apply NoDup_app in Hnd as (_ & _ & Hnd). apply NoDup_cons in Hnd as [Hnot _].
    apply Hnot. rewrite Hid, <- Hjx. by apply list_elem_of_fmap_2.
Qed.

Lemma first_by_id_middle x l1 i l2 n :
  id i = x -> Forall (fun j => id j <> x) l1 ->
  Sql.first_by_id x (mkDb (l1 ++ i :: l2) n) = Some (length l1, i).
Proof.
  intros Hid Hl1. apply list_find_Some. simpl. split; [|split; [done|]].
  - by rewrite list_lookup_middle.
  - intros j y Hj Hlt. rewrite lookup_app_l in Hj by done.
    rewrite Forall_forall in Hl1. apply Hl1. by eapply list_elem_of_lookup_2.
Qed.

Lemma get_issue_middle x y l1 i l2 n :
  Forall (fun j => id j <> y) l1 ->
  get_issue x (mkDb (l1 ++ i :: l2) n)
  = if decide (x = y)
    then (if decide (id i = x) then inr i else get_issue x (mkDb l2 n))
    else match get_issue x (mkDb l1 n) with
         | inr j => inr j
         | inl _ => if decide (id i = x) then inr i else get_issue x (mkDb l2 n)
         end.
Proof.
  intros Hl1. rewrite get_issue_app, get_issue_cons.
  destruct (decide (x = y)) as [->|]; [|done].
  by rewrite (proj1 (get_issue_absent y l1 n) Hl1).
Qed.

(** With unique keys a lookup finds every row under its key. *)
Lemma get_issue_unique db i :
  NoDup (id <$> issues db) -> i ∈ issues db -> get_issue (id i) db = inr i.
Proof.
  intros Hnd Hi. unfold get_issue.
  destruct (list_find_elem_of (fun j => id j = id i) (issues db) i Hi eq_refl)
    as [[k j] Hfind].
  unfold Sql.first_by_id. rewrite Hfind.
  apply list_find_Some in Hfind as (Hk & Hid & _).
  f_equal. apply (keys_fresh_inj db); [done| |done|done].
  by eapply list_elem_of_lookup_2.
Qed.

Lemma update_issue_stale now x u db k i v :
  Sql.first_by_id x db = Some (k, i) -> iu_version u = Some v -> v <> version i ->
  update_issue now x u db = (inl (version_conflict v (version i)), db).
Proof.
  intros Hk Hv Hne. unfold update_issue. rewrite Hk, Hv.
  destruct (decide (version i ≠ v)); [done|]. exfalso. apply Hne. symmetry.
  by apply dec_stable.
Qed.

End Lookup.

(** ** Create, read, update, delete *)

(** X7. With unique keys below the sequence, [create_issue] returns an
    issue that carries the next key of the sequence, the fields of the
    request, version 1 and the clock reading as both timestamps;
    [get_issue] under that key then returns this issue, the answer of
    [get_issue] for every other key is what it was, and the table has one
    row more. *)
Theorem create_then_get (now : Z) (c : IssueCreate) (db : Db) :
  keys_fresh db ->
  let out := create_issue now c db in
  get_issue (id out.1) out.2 = inr out.1
  /\ id out.1 = next_id db
  /\ out.1 = mkIssue (next_id db) (ic_title c) (ic_description c) (ic_status c)
               (ic_priority c) (ic_assignee c) (ic_reporter c) now now 1
  /\ (forall x, x <> next_id db -> get_issue x out.2 = get_issue x db)
  /\ length (issues out.2) = S (length (issues db))
  /\ keys_fresh out.2.
Proof.
  intros Hfresh. pose proof Hfresh as [Hnd Hlt].
  assert (Habs : Forall (fun i => id i <> next_id db) (issues db)).
  { apply Forall_forall. intros i Hi. specialize (Hlt i Hi). lia. }
  cbv zeta. unfold create_issue, db_add. cbn [fst snd].
  set (new := new_issue (next_id db) now c).
  assert (Hnew : id new = next_id db) by reflexivity.
  split; [|split; [done|split; [done|split; [|split]]]].
  - rewrite Hnew, get_issue_app.
    rewrite (proj1 (get_issue_absent _ _ _) Habs), get_issue_cons.
    by rewrite decide_True.
  - intros x Hx. rewrite get_issue_app, get_issue_cons, get_issue_nil.
    rewrite decide_False by congruence.
    rewrite (get_issue_rows x (issues db) _ (next_id db)).
    replace (mkDb (issues db) (next_id db)) with db by (by destruct db).
    destruct (get_issue x db) as [e|i] eqn:Hget; [|done].
    by apply get_issue_error in Hget as ->.
  - cbn [issues]. rewrite length_app. simpl. lia.
  - by apply (db_add_keys_fresh now c db).
Qed.

Lemma create_then_get_witness :
  get_issue 8 (create_issue 300 Sample.new_row Sample.db_v3).2
  = inr (create_issue 300 Sample.new_row Sample.db_v3).1
  /\ get_issue 7 (create_issue 300 Sample.new_row Sample.db_v3).2
     = get_issue 7 Sample.db_v3.
Proof.
  assert (H : keys_fresh Sample.db_v3).
  { split; simpl.
    - apply NoDup_singleton.
    - intros i Hi. apply list_elem_of_singleton in Hi as ->. simpl. lia. }
  destruct (create_then_get 300 Sample.new_row Sample.db_v3 H) as (H1 & _ & _ & H2 & _).
  split; [exact H1|]. apply H2. simpl. lia.
Defined.

(** X8. With unique keys, deleting an issue that [get_issue] finds removes
    exactly that row: the call succeeds, [get_issue] under the key then
    raises the 404 exception, every other key is answered as before, the
    remaining rows are the other rows of the table and the sequence is not
    moved. *)
Theorem delete_then_get (x : Z) (db : Db) (i : Issue) :
  keys_fresh db ->
  get_issue x db = inr i ->
  exists db',
    delete_issue x db = (inr tt, db')
    /\ get_issue x db' = inl (not_found x)
    /\ (forall y, y <> x -> get_issue y db' = get_issue y db)
    /\ (forall j, j ∈ issues db' <-> j ∈ issues db /\ j <> i)
    /\ S (length (issues db')) = length (issues db)
    /\ next_id db' = next_id db.
Proof.
  intros [Hnd Hlt] Hget. apply get_issue_first in Hget as [k Hk].
  destruct (first_by_id_split x db k i Hk) as (l1 & l2 & Hl & Hlen & Hid & H1 & H2).
  specialize (H2 Hnd).
  unfold delete_issue. rewrite Hk. eexists. split; [reflexivity|].
  assert (Hdel : delete k (issues db) = l1 ++ l2).
  { rewrite Hl, <- Hlen. apply delete_middle. }
  simpl. rewrite Hdel.
  split; [|split; [|split; [|split]]].
  - apply get_issue_absent. by apply Forall_app.
  - intros y Hy. destruct db as [l n]. simpl in *. subst l.
    rewrite !get_issue_app, get_issue_cons. rewrite decide_False; [done|].
    congruence.
  - intros j. rewrite Hl, !elem_of_app, elem_of_cons.
    rewrite Forall_forall in H1, H2. split.
    + intros [Hj|Hj]; (split; [tauto|]); intros ->;
        [by apply (H1 i Hj)|by apply (H2 i Hj)].
    + intros [[Hj|[->|Hj]] Hne]; tauto.
  - rewrite Hl, !length_app. simpl. lia.
  - reflexivity.
Qed.

Lemma delete_then_get_witness :
  exists db',
    delete_issue 7 Sample.db_v3 = (inr tt, db')
    /\ get_issue 7 db' = inl (not_found 7)
    /\ (forall y, y <> 7 -> get_issue y db' = get_issue y Sample.db_v3)
    /\ (forall j, j ∈ issues db' <-> j ∈ issues Sample.db_v3 /\ j <> Sample.issue_v3)
    /\ S (length (issues db')) = length (issues Sample.db_v3)
    /\ next_id db' = next_id Sample.db_v3.
Proof.
  apply (delete_then_get 7 Sample.db_v3 Sample.issue_v3).
  - split; simpl.
    + apply NoDup_singleton.
    + intros i Hi. apply list_elem_of_singleton in Hi as ->. simpl. lia.
  - reflexivity.
Defined.

(** X9. A successful [update_issue] changes one row and nothing else: the
    row keeps its key and creation time, gets the clock reading as update
    time and a version one higher; a field that the request leaves unset
    keeps its value, a field that the request sets takes the value given
    (an explicit null clears an optional field); all other rows and the
    sequence stay; [get_issue] under the key returns the new row and answers
    every other key as before. *)
Theorem update_issue_frame
    (now x : Z) (u : IssueUpdate) (db : Db) (i' : Issue) (db' : Db) :
  update_issue now x u db = (inr i', db') ->
  exists k i,
    get_issue x db = inr i /\ issues db !! k = Some i
    /\ id i' = id i /\ created_at i' = created_at i
    /\ updated_at i' = now /\ version i' = version i + 1
    /\ (iu_title u = None -> title i' = title i)
    /\ (forall t, iu_title u = Some (Some t) -> title i' = t)
    /\ (iu_description u = None -> description i' = description i)
    /\ (forall d, iu_description u = Some d -> description i' = d)
    /\ (iu_status u = None -> status i' = status i)
    /\ (forall s, iu_status u = Some (Some s) -> status i' = s)
    /\ (iu_priority u = None -> priority i' = priority i)
    /\ (forall p, iu_priority u = Some (Some p) -> priority i' = p)
    /\ (iu_assignee u = None -> assignee i' = assignee i)
    /\ (forall a, iu_assignee u = Some a -> assignee i' = a)
    /\ (iu_reporter u = None -> reporter i' = reporter i)
    /\ (forall r, iu_reporter u = Some r -> reporter i' = r)
    /\ issues db' = <[k := i']> (issues db)
    /\ (forall j, j <> k -> issues db' !! j = issues db !! j)
    /\ next_id db' = next_id db
    /\ get_issue x db' = inr i'
    /\ (forall y, y <> x -> get_issue y db' = get_issue y db).
Proof.
  intros Hup. apply update_issue_ok in Hup as (k & i & Hk & -> & Hdb & Hnext).
  destruct (first_by_id_split x db k i Hk) as (l1 & l2 & Hl & Hlen & Hid & H1 & _).
  exists k, i.
  assert (Hrows : issues db' = l1 ++ apply_update now u i :: l2).
  { rewrite Hdb, Hl, <- Hlen. rewrite insert_app_r_alt by lia.
    by rewrite Nat.sub_diag. }
  assert (Hfound : get_issue x db' = inr (apply_update now u i)).
  { destruct db' as [l' n']. cbn [issues] in Hrows. subst l'.
    rewrite get_issue_app, (proj1 (get_issue_absent x l1 n') H1), get_issue_cons.
    by rewrite decide_True. }
  assert (Hothers : forall y, y <> x -> get_issue y db' = get_issue y db).
  { intros y Hy. clear Hdb Hfound. destruct db as [l n], db' as [l' n'].
    cbn [issues next_id] in *. subst l l' n'.
    rewrite !get_issue_app, !get_issue_cons.
    assert (Hid' : id (apply_update now u i) = x) by exact Hid.
    by rewrite !decide_False by congruence. }
  split; [apply get_issue_first; eauto|].
  split; [by apply list_find_Some in Hk as (? & _)|].
  simpl. repeat split; try done.
  - by intros ->.
  - by intros t ->.
  - by intros ->.
  - by intros d ->.
  - by intros ->.
  - by intros s ->.
  - by intros ->.
  - by intros p ->.
  - by intros ->.
  - by intros a ->.
  - by intros ->.
  - by intros r ->.
  - intros j Hj. rewrite Hdb. by apply list_lookup_insert_ne.
Qed.

Lemma update_issue_frame_witness :
  exists k i,
    get_issue 7 Sample.db_v3 = inr i /\ issues Sample.db_v3 !! k = Some i
    /\ version (apply_update 200 Sample.fresh_update Sample.issue_v3) = version i + 1.
Proof.
  destruct (update_issue_frame 200 7 Sample.fresh_update Sample.db_v3
              (apply_update 200 Sample.fresh_update Sample.issue_v3)
              (mkDb [apply_update 200 Sample.fresh_update Sample.issue_v3] 8)
              eq_refl)
    as (k & i & H1 & H2 & _ & _ & _ & H3 & _).
  exists k, i. auto.
Defined.

(** X10. Optimistic locking keeps a second writer out: after an update that
    supplied the version [v] has succeeded, every update of the same issue
    that still supplies [v] raises the 409 exception that names [v] and the
    current version [v + 1] and leaves the table as the first writer left
    it, while an update that supplies [v + 1] and sets no required column to
    null succeeds. *)
Theorem second_writer_conflicts
    (now x : Z) (u : IssueUpdate) (db : Db) (i' : Issue) (db' : Db) (v : Z) :
  update_issue now x u db = (inr i', db') ->
  iu_version u = Some v ->
  version i' = v + 1
  /\ (forall now2 u2,
        iu_version u2 = Some v ->
        update_issue now2 x u2 db' = (inl (version_conflict v (v + 1)), db'))
  /\ (forall now2 u2,
        iu_version u2 = Some (v + 1) -> null_columns u2 = [] ->
        exists i'' db'',
          update_issue now2 x u2 db' = (inr i'', db'') /\ version i'' = v + 2).
Proof.
  intros Hup Hv.
  assert (Hver : exists k i, Sql.first_by_id x db = Some (k, i) /\ version i = v
                             /\ i' = apply_update now u i
                             /\ issues db' = <[k := i']> (issues db)).
  { revert Hup. unfold update_issue, commit_update.
    destruct (Sql.first_by_id x db) as [[k i]|]; [|discriminate]. rewrite Hv.
    destruct (decide (version i ≠ v)) as [|Heq]; [discriminate|].
    destruct (null_columns u); [|discriminate].
    intros [= <- <-]. exists k, i. repeat split; try done. by apply dec_stable. }
  destruct Hver as (k & i & Hk & Hvi & -> & Hdb).
  destruct (first_by_id_split x db k i Hk) as (l1 & l2 & Hl & Hlen & Hid & H1 & _).
  assert (Hk' : Sql.first_by_id x db' = Some (k, apply_update now u i)).
  { destruct db' as [l' n']. cbn [issues] in Hdb. subst l'.
    rewrite Hl, <- Hlen, insert_app_r_alt by lia. rewrite Nat.sub_diag. simpl.
    by apply first_by_id_middle. }
  split; [simpl; lia|]. split.
  - intros now2 u2 Hv2.
    rewrite (update_issue_stale now2 x u2 db' k _ v Hk' Hv2); simpl; [|lia].
    by rewrite Hvi.
  - intros now2 u2 Hv2 Hnull. unfold update_issue, commit_update.
    rewrite Hk', Hv2, Hnull. simpl.
    destruct (decide (version i + 1 ≠ v + 1)); [lia|].
    eexists _, _. split; [reflexivity|]. simpl. lia.
Qed.

Lemma second_writer_conflicts_witness :
  update_issue 210 7 Sample.fresh_update
    (update_issue 200 7 Sample.fresh_update Sample.db_v3).2
  = (inl (version_conflict 3 (3 + 1)),
     (update_issue 200 7 Sample.fresh_update Sample.db_v3).2).
Proof.
  apply (second_writer_conflicts 200 7 Sample.fresh_update Sample.db_v3
           (apply_update 200 Sample.fresh_update Sample.issue_v3)
           (update_issue 200 7 Sample.fresh_update Sample.db_v3).2 3).
  - reflexivity.
  - reflexivity.
  - reflexivity.
Defined.

(** X11. For a key that no row carries, [get_issue], [update_issue] and
    [delete_issue] all raise the same 404 exception, whose detail names the
    key, and the two writers leave the table as it is; and [get_issue]
    raises only in that case. *)
Theorem missing_id_is_not_found (x : Z) (db : Db) :
  (forall i, i ∈ issues db -> id i <> x) ->
  get_issue x db
  = inl (HTTPException 404 ("Issue with ID " +:+ pretty x +:+ " not found"))
  /\ (forall now u,
        update_issue now x u db
        = (inl (HTTPException 404 ("Issue with ID " +:+ pretty x +:+ " not found")),
           db))
  /\ delete_issue x db
     = (inl (HTTPException 404 ("Issue with ID " +:+ pretty x +:+ " not found")), db)
  /\ (forall y e, get_issue y db = inl e -> forall i, i ∈ issues db -> id i <> y).
Proof.
  intros Habs.
  assert (Hnone : Sql.first_by_id x db = None).
  { apply list_find_None, Forall_forall. exact Habs. }
  split; [|split; [|split]].
  - unfold get_issue. by rewrite Hnone.
  - intros now u. unfold update_issue. by rewrite Hnone.
  - unfold delete_issue. by rewrite Hnone.
  - intros y e Hget. unfold get_issue in Hget.
    destruct (Sql.first_by_id y db) as [[k j]|] eqn:Hy; [discriminate|].
    apply list_find_None in Hy. rewrite Forall_forall in Hy. exact Hy.
Qed.

Lemma missing_id_is_not_found_witness :
  get_issue 9 Sample.db_v3 = inl (HTTPException 404 "Issue with ID 9 not found")
  /\ delete_issue 9 Sample.db_v3
     = (inl (HTTPException 404 "Issue with ID 9 not found"), Sample.db_v3).
Proof.
  assert (H : forall i, i ∈ issues Sample.db_v3 -> id i <> 9).
  { intros i Hi. apply list_elem_of_singleton in Hi as ->. simpl. lia. }
  destruct (missing_id_is_not_found 9 Sample.db_v3 H) as (H1 & _ & H3 & _).
  split; [exact H1|exact H3].
Defined.

(** ** Bulk operations and single operations *)

Lemma get_issue_filter (P : Issue -> Prop) `{!forall i, Decision (P i)} x l n :
  (forall i, i ∈ l -> id i = x -> P i) ->
  get_issue x (mkDb (filter P l) n) = get_issue x (mkDb l n).
Proof.
  induction l as [|i l IH]; intros Hx; [done|].
  rewrite filter_cons, get_issue_cons.
  destruct (decide (P i)) as [HP|HP].
  - rewrite get_issue_cons. destruct (decide (id i = x)); [done|].
    apply IH. intros j Hj. apply Hx. by right.
  - destruct (decide (id i = x)) as [Hid|].
    + exfalso. apply HP. apply Hx; [left|done].
    + apply IH. intros j Hj. apply Hx. by right.
Qed.

(** X12. After a successful [bulk_delete_issues], [get_issue] raises the 404
    exception for every requested key and answers every other key as
    before; the table has lost exactly [deleted_count] rows; and the same
    bulk delete, sent again, raises the 404 exception of the bulk handlers
    and changes nothing. *)
Theorem bulk_delete_then
    (bd : IssueBulkDelete) (db : Db) (res : BulkDeleted) (db' : Db) :
  bulk_delete_issues bd db = (inr res, db') ->
  (forall x, x ∈ bd_issue_ids bd -> get_issue x db' = inl (not_found x))
  /\ (forall x, x ∉ bd_issue_ids bd -> get_issue x db' = get_issue x db)
  /\ Z.of_nat (length (issues db')) + deleted_count res
     = Z.of_nat (length (issues db))
  /\ 0 < deleted_count res
  /\ bulk_delete_issues bd db' = (inl not_found_bulk, db').
Proof.
  unfold bulk_delete_issues at 1.
  destruct (Sql.all_by_ids (bd_issue_ids bd) db) as [|i0 l0] eqn:Hq; [discriminate|].
  intros [= <- <-]. cbn [issues deleted_count].
  split; [|split; [|split; [|split]]].
  - intros x Hx. apply get_issue_absent, Forall_forall.
    intros i Hi. apply list_elem_of_filter in Hi as [Hni _]. congruence.
  - intros x Hx. destruct db as [l n]. cbn [issues next_id].
    apply get_issue_filter. intros i _ ->. exact Hx.
  - change (S (length l0)) with (length (i0 :: l0)).
    rewrite <- Hq. unfold Sql.all_by_ids.
    pose proof (filter_app_complement (fun i => id i ∈ bd_issue_ids bd) (issues db))
      as Hperm.
    apply Permutation_length in Hperm. rewrite length_app in Hperm. lia.
  - simpl. lia.
  - unfold bulk_delete_issues, Sql.all_by_ids. cbn [issues].
    rewrite list_filter_filter.
    assert (Hnil : filter (fun i => id i ∈ bd_issue_ids bd /\ id i ∉ bd_issue_ids bd)
                     (issues db) = []).
    { induction (issues db) as [|i l IH]; [done|].
      rewrite filter_cons_False by tauto. exact IH. }
    by rewrite Hnil.
Qed.

Lemma bulk_delete_then_witness :
  (forall x, x ∈ [7; 9] ->
     get_issue x (bulk_delete_issues (mkIssueBulkDelete [7; 9]) Sample.db_v3).2
     = inl (not_found x))
  /\ bulk_delete_issues (mkIssueBulkDelete [7; 9])
       (bulk_delete_issues (mkIssueBulkDelete [7; 9]) Sample.db_v3).2
     = (inl not_found_bulk,
        (bulk_delete_issues (mkIssueBulkDelete [7; 9]) Sample.db_v3).2).
Proof.
  destruct (bulk_delete_then (mkIssueBulkDelete [7; 9]) Sample.db_v3
              (mkBulkDeleted "Successfully deleted 1 issue(s)" 1 [7])
              (bulk_delete_issues (mkIssueBulkDelete [7; 9]) Sample.db_v3).2
              eq_refl)
    as (H1 & _ & _ & _ & H5).
  split; [exact H1|exact H5].
Defined.

(** X13. With unique keys, a bulk update of the one key of a stored issue
    leaves the table that a single update without expected version leaves
    when it sets the same status, priority and assignee; the issue that the
    single update returns is the row that the bulk update stores. *)
Theorem bulk_update_of_one_key
    (now x : Z) (bu : IssueBulkUpdate) (db : Db) (i : Issue) :
  keys_fresh db ->
  get_issue x db = inr i ->
  bu_issue_ids bu = [x] ->
  update_issue now x (as_single_update bu) db
  = (inr (bulk_assign now bu i), (bulk_update_issues now bu db).2)
  /\ (exists res, (bulk_update_issues now bu db).1 = inr res
                  /\ updated_count res = 1 /\ updated_ids res = [x])
  /\ get_issue x (bulk_update_issues now bu db).2 = inr (bulk_assign now bu i).
Proof.
  intros [Hnd _] Hget Hids. apply get_issue_first in Hget as [k Hk].
  destruct (first_by_id_split x db k i Hk) as (l1 & l2 & Hl & Hlen & Hid & H1 & H2).
  specialize (H2 Hnd).
  assert (Hsame : apply_update now (as_single_update bu) i = bulk_assign now bu i).
  { unfold apply_update, bulk_assign, as_single_update. simpl.
    by destruct (bu_status bu), (bu_priority bu), (bu_assignee bu). }
  assert (Hnull : null_columns (as_single_update bu) = []).
  { unfold null_columns, as_single_update. simpl.
    by destruct (bu_status bu), (bu_priority bu). }
  assert (Hkeep : forall l, Forall (fun j => id j <> x) l ->
            (fun j => if decide (id j ∈ bu_issue_ids bu)
                      then bulk_assign now bu j else j) <$> l = l).
  { intros l Hall. rewrite <- (list_fmap_id l) at 2. apply fmap_ext_elem.
    intros j Hj. rewrite Forall_forall in Hall. specialize (Hall j Hj).
    rewrite Hids, decide_False; [done|]. rewrite list_elem_of_singleton. done. }
  assert (Hmatched : Sql.all_by_ids (bu_issue_ids bu) db = [i]).
  { unfold Sql.all_by_ids. rewrite Hl, filter_app, filter_cons.
    assert (Hnone : forall l, Forall (fun j => id j <> x) l ->
              filter (fun j => id j ∈ bu_issue_ids bu) l = []).
    { intros l Hall. induction Hall as [|j l Hj _ IH]; [done|].
      rewrite filter_cons_False; [done|]. rewrite Hids, list_elem_of_singleton. done. }
    rewrite (Hnone l1 H1), (Hnone l2 H2).
    rewrite decide_True; [done|]. rewrite Hids, list_elem_of_singleton. done. }
  assert (Hbulk : (bulk_update_issues now bu db).2
                  = mkDb (l1 ++ bulk_assign now bu i :: l2) (next_id db)).
  { unfold bulk_update_issues. rewrite Hmatched. cbn [snd]. f_equal.
    rewrite Hl, fmap_app, fmap_cons, (Hkeep l1 H1), (Hkeep l2 H2).
    rewrite decide_True; [done|]. rewrite Hids, list_elem_of_singleton. done. }
  split; [|split].
  - unfold update_issue, commit_update. rewrite Hk. cbn [iu_version as_single_update].
    rewrite Hnull, Hsame, Hbulk. do 2 f_equal.
    rewrite Hl, <- Hlen, insert_app_r_alt by lia. by rewrite Nat.sub_diag.
  - unfold bulk_update_issues. rewrite Hmatched. cbn [fst].
    eexists. split; [reflexivity|]. simpl. by rewrite Hid.
  - rewrite Hbulk, get_issue_app, (proj1 (get_issue_absent x l1 _) H1), get_issue_cons.
    rewrite decide_True; done.
Qed.

Lemma bulk_update_of_one_key_witness :
  update_issue 200 7 (as_single_update Sample.bulk_one) Sample.db_v3
  = (inr (bulk_assign 200 Sample.bulk_one Sample.issue_v3),
     (bulk_update_issues 200 Sample.bulk_one Sample.db_v3).2).
Proof.
  apply (bulk_update_of_one_key 200 7 Sample.bulk_one Sample.db_v3 Sample.issue_v3).
  - split; simpl.
    + apply NoDup_singleton.
    + intros i Hi. apply list_elem_of_singleton in Hi as ->. simpl. lia.
  - reflexivity.
  - reflexivity.
Defined.

(** ** Counts by assignee *)

Section ByAssignee.

Lemma sum_values_delete (d : gmap string Z) k :
  sum_values d = default 0 (d !! k) + sum_values (delete k d).
Proof.
  destruct (d !! k) as [w|] eqn:Hk; simpl.
  - rewrite <- (insert_delete_id d k w Hk) at 1.
    apply sum_values_insert, lookup_delete_eq.
  - by rewrite delete_id.
Qed.

Lemma sum_values_overwrite (d : gmap string Z) k v :
  sum_values (<[k := v]> d) = v + sum_values d - default 0 (d !! k).
Proof.
  rewrite <- insert_delete_eq, sum_values_insert by apply lookup_delete_eq.
  rewrite (sum_values_delete d k). lia.
Qed.

(** The dictionary comprehension over pairs [(a, f a)]. *)
Lemma comprehension_lookup (f : string -> Z) ks : forall (d : gmap string Z) a,
  foldl (fun d ac => <[ac.1 := ac.2]> d) d ((fun a => (a, f a)) <$> ks) !! a
  = if decide (a ∈ ks) then Some (f a) else d !! a.
Proof.
  induction ks as [|k ks IH]; intros d a.
  - rewrite decide_False; [done|]. apply not_elem_of_nil.
  - rewrite fmap_cons. simpl foldl.
    rewrite IH. destruct (decide (a ∈ ks)) as [Hin|Hin].
    + rewrite decide_True; [done|]. by right.
    + destruct (decide (a = k)) as [->|Hne].
      * rewrite decide_True by left. apply lookup_insert_eq.
      * rewrite decide_False; [by apply lookup_insert_ne|].
        rewrite elem_of_cons. tauto.
Qed.

Lemma comprehension_sum (f : string -> Z) ks : forall d : gmap string Z,
  NoDup ks -> (forall a, a ∈ ks -> d !! a = None) ->
  sum_values (foldl (fun d ac => <[ac.1 := ac.2]> d) d ((fun a => (a, f a)) <$> ks))
  = sum_values d + foldr (fun a acc => f a + acc) 0 ks.
Proof.
  induction ks as [|k ks IH]; intros d Hnd Hfree; [simpl; lia|].
  rewrite fmap_cons. simpl foldl. simpl foldr.
  apply NoDup_cons in Hnd as [Hk Hnd].
  rewrite IH; [|done|].
  - rewrite sum_values_insert by (apply Hfree; left). lia.
  - intros a Ha. rewrite lookup_insert_ne by (intros ->; done).
    apply Hfree. by right.
Qed.

Lemma sum_ext {A} (f g : A -> Z) ks :
  (forall a, a ∈ ks -> f a = g a) ->
  foldr (fun a acc => f a + acc) 0 ks = foldr (fun a acc => g a + acc) 0 ks.
Proof.
  induction ks as [|k ks IH]; intros H; simpl; [done|].
  rewrite H by left. rewrite IH; [done|]. intros a Ha. apply H. by right.
Qed.

(** Over a duplicate-free list of keys that covers [xs], the numbers of
    occurrences add up to the length of [xs]. *)
Lemma sum_occurrences (ks : list string) : forall xs : list string,
  NoDup ks -> (forall x, x ∈ xs -> x ∈ ks) ->
  foldr (fun a acc => Z.of_nat (length (filter (fun x => x = a) xs)) + acc) 0 ks
  = Z.of_nat (length xs).
Proof.
  induction ks as [|k ks IH]; intros xs Hnd Hcov; simpl.
  - destruct xs as [|x xs]; [done|]. exfalso.
    apply (not_elem_of_nil x), Hcov. left.
  - apply NoDup_cons in Hnd as [Hk Hnd].
    rewrite (sum_ext _ (fun a => Z.of_nat (length (filter (fun x => x = a)
                                 (filter (fun x => x <> k) xs)))) ks).
    + rewrite IH; [|done|].
      * pose proof (filter_app_complement (fun x => x = k) xs) as Hperm.
        apply Permutation_length in Hperm. rewrite length_app in Hperm. lia.
      * intros x Hx. apply list_elem_of_filter in Hx as [Hne Hx].
        specialize (Hcov x Hx). apply elem_of_cons in Hcov as [?|?]; done.
    + intros a Ha. do 2 f_equal. rewrite list_filter_filter.
      apply list_filter_iff. intros x. split; [|tauto].
      intros ->. split; [done|]. intros ->. done.
Qed.

Lemma filter_none {A} (P : A -> Prop) `{!forall x, Decision (P x)} (l : list A) :
  Forall (fun x => ~ P x) l -> filter P l = [].
Proof.
  induction 1 as [|x l Hx _ IH]; [done|]. by rewrite filter_cons_False.
Qed.

Lemma omap_assignee_cons i l :
  omap assignee (i :: l)
  = match assignee i with
    | Some b => b :: omap assignee l
    | None => omap assignee l
    end.
Proof. reflexivity. Qed.

Lemma count_assigned a db :
  assigned_to a db
  = Z.of_nat (length (filter (fun x => x = a) (omap assignee (issues db)))).
Proof.
  unfold assigned_to, Sql.count. f_equal.
  induction (issues db) as [|i l IH]; [done|].
  rewrite filter_cons, omap_assignee_cons.
  destruct (assignee i) as [b|] eqn:Hb.
  - rewrite filter_cons.
    destruct (decide (Some b = Some a)) as [Heq|Hne], (decide (b = a)) as [Hb'|Hb'];
      try congruence; simpl length; by rewrite IH.
  - destruct (decide (None = Some a)); [done|exact IH].
Qed.

Lemma count_unassigned db :
  Sql.count (fun i => assignee i = None) db
  + Z.of_nat (length (omap assignee (issues db)))
  = Sql.count (fun _ => True) db.
Proof.
  unfold Sql.count. induction (issues db) as [|i l IH]; [done|].
  rewrite !filter_cons, omap_assignee_cons.
  destruct (decide True) as [_|Hf]; [|done].
  destruct (assignee i) as [b|].
  - destruct (decide (Some b = None)); [done|]. simpl length. lia.
  - destruct (decide (None = None)); [|done]. simpl length. lia.
Qed.

End ByAssignee.

(** X14. In the statistics, the assignee dictionary binds every assignee
    other than the word [unassigned] that some issue carries to the number
    of issues that carry it, and binds no other such string. Its values add
    up to the total minus the number of issues whose assignee is the word
    [unassigned] (the entry for issues without assignee takes their place);
    so they add up to the total exactly when no issue has that assignee. *)
Theorem by_assignee_counts (db : Db) :
  let d := st_by_assignee (get_issue_stats db) in
  (forall a, a <> "unassigned" ->
     d !! a = if decide (0 < assigned_to a db) then Some (assigned_to a db) else None)
  /\ sum_values d
     = st_total_issues (get_issue_stats db) - assigned_to "unassigned" db
  /\ ((forall i, i ∈ issues db -> assignee i <> Some "unassigned") <->
      sum_values d = st_total_issues (get_issue_stats db)).
Proof.
  set (ks := remove_dups (omap assignee (issues db))).
  assert (Hks : forall a, a ∈ ks <-> 0 < assigned_to a db).
  { intros a. unfold ks. rewrite elem_of_remove_dups, count_assigned.
    split.
    - intros Ha.
      assert (Hin : a ∈ filter (fun x => x = a) (omap assignee (issues db)))
        by (by apply list_elem_of_filter).
      destruct (filter _ _); [by apply not_elem_of_nil in Hin|]. simpl. lia.
    - intros Hpos.
      destruct (filter (fun x => x = a) (omap assignee (issues db))) as [|x l] eqn:Hf;
        [simpl in Hpos; lia|].
      assert (Hx : x ∈ filter (fun x => x = a) (omap assignee (issues db)))
        by (rewrite Hf; left).
      apply list_elem_of_filter in Hx as [-> Hx]. done. }
  assert (Hm : forall a,
            foldl (fun d ac => <[ac.1 := ac.2]> d) (∅ : gmap string Z)
              (assignee_counts db) !! a
            = if decide (0 < assigned_to a db) then Some (assigned_to a db) else None).
  { intros a. unfold assignee_counts. fold ks.
    change (fun a0 => (a0, Sql.count (fun i => assignee i = Some a0) db))
      with (fun a0 => (a0, assigned_to a0 db)).
    rewrite comprehension_lookup, lookup_empty.
    destruct (decide (a ∈ ks)) as [Hin|Hin], (decide (0 < assigned_to a db)) as [Hp|Hp];
      try done; exfalso.
    - apply Hp. by apply Hks.
    - apply Hin. by apply Hks. }
  assert (Hsum : sum_values
                   (foldl (fun d ac => <[ac.1 := ac.2]> d) (∅ : gmap string Z)
                      (assignee_counts db))
                 = Z.of_nat (length (omap assignee (issues db)))).
  { unfold assignee_counts. fold ks.
    change (fun a0 => (a0, Sql.count (fun i => assignee i = Some a0) db))
      with (fun a0 => (a0, assigned_to a0 db)).
    rewrite comprehension_sum; [| apply NoDup_remove_dups | intros; apply lookup_empty].
    assert (sum_values ∅ = 0) as -> by apply map_fold_empty.
    rewrite (sum_ext _ (fun a => Z.of_nat (length (filter (fun x => x = a)
                                  (omap assignee (issues db))))) ks)
      by (intros a _; apply count_assigned).
    rewrite sum_occurrences; [lia| apply NoDup_remove_dups |].
    intros x Hx. by apply elem_of_remove_dups. }
  assert (Htotal : sum_values (st_by_assignee (get_issue_stats db))
                   = st_total_issues (get_issue_stats db)
                     - assigned_to "unassigned" db).
  { unfold get_issue_stats. cbn [st_by_assignee st_total_issues].
    rewrite sum_values_overwrite, Hsum, Hm.
    pose proof (count_unassigned db) as Hc.
    destruct (decide (0 < assigned_to "unassigned" db)) as [Hp|Hp]; simpl; [lia|].
    assert (0 <= assigned_to "unassigned" db)
      by (unfold assigned_to, Sql.count; lia).
    lia. }
  cbv zeta. split; [|split].
  - intros a Ha. unfold get_issue_stats. cbn [st_by_assignee].
    rewrite lookup_insert_ne by done. apply Hm.
  - exact Htotal.
  - rewrite Htotal. split.
    + intros Hno.
      assert (assigned_to "unassigned" db = 0); [|lia].
      unfold assigned_to, Sql.count.
      assert (Hnil : filter (fun i => assignee i = Some "unassigned") (issues db) = []).
      { apply filter_none, Forall_forall. exact Hno. }
      by rewrite Hnil.
    + intros Heq i Hi Ha.
      assert (Hin : i ∈ filter (fun i => assignee i = Some "unassigned") (issues db))
        by (by apply list_elem_of_filter).
      assert (Hz : assigned_to "unassigned" db = 0) by lia.
      unfold assigned_to, Sql.count in Hz.
      destruct (filter _ _); [by apply not_elem_of_nil in Hin|]. simpl in Hz. lia.
Qed.

(** ** Listing, statistics and export together *)

Lemma selected_only_status s lim i :
  selected (mkListParams (Some s) None None None 0 lim) i = true <-> status i = s.
Proof.
  unfold selected. simpl. rewrite status_value_truthy, !andb_true_r, bool_decide_eq_true.
  split; congruence.
Qed.

Lemma selected_only_priority q lim i :
  selected (mkListParams None (Some q) None None 0 lim) i = true <-> priority i = q.
Proof.
  unfold selected. simpl.
  rewrite priority_value_truthy, !andb_true_r, bool_decide_eq_true.
  split; congruence.
Qed.

Lemma list_issues_covering order_by p db :
  (forall l, order_by l ≡ₚ l) ->
  skip p <= 0 -> Z.of_nat (length (issues db)) <= limit p ->
  list_issues order_by p db
  = order_by (filter (fun i => selected p i = true) (issues db)).
Proof.
  intros Hperm Hskip Hlimit. unfold list_issues. apply offset_limit_all; [done|].
  rewrite Hperm.
  pose proof (length_filter (fun i => selected p i = true) (issues db)). lia.
Qed.

(** X15. The status and priority counters of the statistics are the numbers
    of issues that the listing returns for that status or priority alone,
    when the page covers the table and the storage engine returns a
    permutation of the selected rows. *)
Theorem stats_count_is_list_length
    (order_by : list Issue -> list Issue) (db : Db) (lim : Z) :
  (forall l, order_by l ≡ₚ l) ->
  Z.of_nat (length (issues db)) <= lim ->
  (forall s,
     st_by_status (get_issue_stats db) !! status_value s
     = Some (Z.of_nat (length (list_issues order_by
                                 (mkListParams (Some s) None None None 0 lim) db))))
  /\ (forall q,
        st_by_priority (get_issue_stats db) !! priority_value q
        = Some (Z.of_nat (length (list_issues order_by
                                    (mkListParams None (Some q) None None 0 lim) db))))
  /\ st_total_issues (get_issue_stats db)
     = Z.of_nat (length (list_issues order_by
                           (mkListParams None None None None 0 lim) db)).
Proof.
  intros Hperm Hlim. split; [|split].
  - intros s. rewrite list_issues_covering by (simpl; done || lia).
    rewrite Hperm.
    rewrite (list_filter_iff _ (fun i => status i = s))
      by (intros i; apply selected_only_status).
    unfold get_issue_stats. cbn [st_by_status]. unfold Sql.count.
    destruct s; simpl; by simplify_map_eq.
  - intros q. rewrite list_issues_covering by (simpl; done || lia).
    rewrite Hperm.
    rewrite (list_filter_iff _ (fun i => priority i = q))
      by (intros i; apply selected_only_priority).
    unfold get_issue_stats. cbn [st_by_priority]. unfold Sql.count.
    destruct q; simpl; by simplify_map_eq.
  - rewrite list_issues_covering by (simpl; done || lia).
    rewrite Hperm. unfold get_issue_stats. cbn [st_total_issues]. unfold Sql.count.
    do 2 f_equal. apply list_filter_iff. intros i. by split.
Qed.

Lemma stats_count_is_list_length_witness :
  st_by_status (get_issue_stats Sample.same_time_db) !! status_value OPEN
  = Some (Z.of_nat (length (list_issues Engine.scan_order
                              (mkListParams (Some OPEN) None None None 0 100)
                              Sample.same_time_db))).
Proof.
  apply (stats_count_is_list_length Engine.scan_order Sample.same_time_db 100).
  - intros l. apply merge_sort_Permutation.
  - simpl. lia.
Defined.

Lemma NoDup_fmap_elem_inj {A B} (f : A -> B) (l : list A) (x y : A) :
  NoDup (f <$> l) -> x ∈ l -> y ∈ l -> f x = f y -> x = y.
Proof.
  intros Hnd Hx Hy Hf.
  apply list_elem_of_lookup in Hx as [a Ha]. apply list_elem_of_lookup in Hy as [b Hb].
  assert (a = b) as ->.
  { eapply NoDup_lookup; [exact Hnd| |].
    - rewrite list_lookup_fmap, Ha. reflexivity.
    - rewrite list_lookup_fmap, Hb. simpl. by rewrite Hf. }
  congruence.
Qed.

(** Two answers to [ORDER BY created_at DESC] are the same list when no two
    rows share their [created_at]. *)
Lemma order_by_unique (first second : list Issue -> list Issue) (l : list Issue) :
  answers_order_by first -> answers_order_by second ->
  NoDup (created_at <$> l) -> first l = second l.
Proof.
  intros [Hp1 Hs1] [Hp2 Hs2] Hnd.
  apply (StronglySorted_unique_strong Engine.newest_first).
  - intros x1 x2 Hx1 Hx2 H12 H21. rewrite Hp1 in Hx1. rewrite Hp2 in Hx2.
    apply (NoDup_fmap_elem_inj created_at l); [done|done|done|].
    unfold Engine.newest_first in H12, H21. lia.
  - apply Hs1.
  - apply Hs2.
  - by rewrite Hp1, Hp2.
Qed.

(** X16. Consecutive pages fit together when no two issues of the table
    share their [created_at]: for fixed filters and a fixed table, whatever
    order each query gives to equal [created_at], the page of [a] rows
    after [sk] rows followed by the page of [b] rows after [sk + a] rows is
    the page of [a + b] rows after [sk] rows, so no row is lost or repeated
    between pages. With equal [created_at] in the table the query, which
    names no second key, does not ensure this. *)
Theorem pages_concatenate
    (first second whole : list Issue -> list Issue)
    (sf : option StatusEnum) (pr : option PriorityEnum) (asg se : option string)
    (sk a b : Z) (db : Db) :
  answers_order_by first -> answers_order_by second -> answers_order_by whole ->
  NoDup (created_at <$> issues db) ->
  0 <= sk -> 0 <= a -> 0 <= b ->
  list_issues first (mkListParams sf pr asg se sk a) db
  ++ list_issues second (mkListParams sf pr asg se (sk + a) b) db
  = list_issues whole (mkListParams sf pr asg se sk (a + b)) db.
Proof.
  intros H1 H2 H3 Hnd Hsk Ha Hb. unfold list_issues, Sql.offset_limit. simpl.
  change (fun i => selected (mkListParams sf pr asg se (sk + a) b) i = true)
    with (fun i => selected (mkListParams sf pr asg se sk a) i = true).
  change (fun i => selected (mkListParams sf pr asg se sk (a + b)) i = true)
    with (fun i => selected (mkListParams sf pr asg se sk a) i = true).
  set (rows := filter _ (issues db)).
  assert (Hrows : NoDup (created_at <$> rows)).
  { eapply sublist_NoDup; [exact Hnd|]. apply fmap_sublist, sublist_filter. }
  rewrite (order_by_unique first whole rows H1 H3 Hrows).
  rewrite (order_by_unique second whole rows H2 H3 Hrows).
  rewrite !Z2Nat.inj_add by lia. rewrite <- drop_drop. apply take_take_drop.
Qed.

Lemma pages_concatenate_witness :
  list_issues Engine.scan_order (mkListParams None None None None 0 1)
    Sample.three_instants_db
  ++ list_issues Engine.insertion_order (mkListParams None None None None (0 + 1) 2)
       Sample.three_instants_db
  = list_issues Engine.scan_order (mkListParams None None None None 0 (1 + 2))
      Sample.three_instants_db.
Proof.
  apply (pages_concatenate Engine.scan_order Engine.insertion_order Engine.scan_order
           None None None None 0 1 2 Sample.three_instants_db).
  - split; apply scan_order_contract.
  - split; apply insertion_order_contract.
  - split; apply scan_order_contract.
  - apply (bool_decide_unpack _). by vm_compute.
  - lia.
  - lia.
  - lia.
Defined.



(** ** Upload *)

Lemma string_length_append s t :
  String.length (s +:+ t) = (String.length s + String.length t)%nat.
Proof. induction s as [|c s IH]; [done|]. rewrite append_cons. simpl. by rewrite IH. Qed.

Lemma string_drop_append s t : string_drop (String.length s) (s +:+ t) = t.
Proof. induction s as [|c s IH]; [by destruct t|]. by rewrite append_cons. Qed.

Lemma string_drop_suffix n : forall s,
  (n <= String.length s)%nat -> exists pre, s = pre +:+ string_drop n s.
Proof.
  induction n as [|n IH]; intros s Hn.
  - by exists EmptyString.
  - destruct s as [|c s]; [simpl in Hn; lia|]. simpl in Hn.
    destruct (IH s) as [pre Hpre]; [lia|].
    exists (String c pre). rewrite append_cons. simpl. by rewrite <- Hpre.
Qed.

Lemma endswith_spec s suffix :
  endswith s suffix = true <-> exists stem, s = stem +:+ suffix.
Proof.
  unfold endswith. rewrite andb_true_iff, Nat.leb_le, String.eqb_eq. split.
  - intros [Hle Hdrop].
    destruct (string_drop_suffix (String.length s - String.length suffix) s)
      as [pre Hpre]; [lia|].
    exists pre. by rewrite Hdrop in Hpre.
  - intros [stem ->]. rewrite string_length_append. split; [lia|].
    replace (String.length stem + String.length suffix - String.length suffix)%nat
      with (String.length stem) by lia.
    apply string_drop_append.
Qed.

(** X18. [import_csv] looks at the file name only: a name that ends in
    [.csv] (in lower case) is imported and the answer is the result of
    [import_issues_from_csv]; every other name is refused with the 400
    exception and nothing is stored. *)
Theorem import_csv_checks_file_name
    (str : Exception -> string) (clock : Z -> Z)
    (commit_fault : Z -> option Exception)
    (filename : string) (reader : list (gmap string (option string))) (db : Db) :
  ((exists stem, filename = stem +:+ ".csv") ->
   import_csv str clock commit_fault filename reader db
   = (inr (Csv.import_issues_from_csv str clock commit_fault reader db).1,
      (Csv.import_issues_from_csv str clock commit_fault reader db).2))
  /\ (~ (exists stem, filename = stem +:+ ".csv") ->
      import_csv str clock commit_fault filename reader db
      = (inl (HTTPException 400 "File must be a CSV file"), db))
  /\ import_csv str clock commit_fault "issues.CSV" reader db
     = (inl (HTTPException 400 "File must be a CSV file"), db).
Proof.
  split; [|split].
  - intros Hend. apply endswith_spec in Hend. unfold import_csv. rewrite Hend. simpl.
    by destruct (Csv.import_issues_from_csv str clock commit_fault reader db).
  - intros Hend. unfold import_csv.
    destruct (endswith filename ".csv") eqn:E; [|done].
    exfalso. apply Hend. by apply endswith_spec.
  - reflexivity.
Qed.
